(** * Windows helper utilities of the Raycast ShareX extension

    A shallow embedding of [src/utils/windows-helpers.ts]: the CSV reader
    [parseWindowsCSV], the command-template parser [parseCustomCommand],
    the executor [executeWindowsCommand] with its clients
    [getProcessList] and [isToolAvailable], and the bulk runner
    [processItemsWithRecovery].

    JavaScript strings are sequences of code units; here a code unit is an
    [ascii] (code units 0..255), which covers every character the helpers
    test for.  Asynchronous functions are modelled in a state-and-exception
    monad: a computation takes the state of the outside world and gives
    the new state together with either a returned value or a thrown one. *)

From Stdlib Require Import String Ascii List Bool Arith Lia.
From Stdlib Require Import DecimalString.
Import ListNotations.
Local Open Scope list_scope.

(* ================================================================= *)
(** ** JavaScript strings *)

Module JsString.

Definition jsstring : Type := list ascii.

Definition str (s : string) : jsstring := list_ascii_of_string s.
Arguments str s%_string.

Definition dquote : ascii := "034"%char.
Definition comma : ascii := ","%char.
Definition LF : ascii := "010"%char.
Definition CR : ascii := "013"%char.
Definition backslash : ascii := "\"%char.
Definition dollar : ascii := "$"%char.

(** [quoted s] is [s] between two double quotes. *)
Definition quoted (s : jsstring) : jsstring := dquote :: s ++ [dquote].

(** ECMAScript WhiteSpace and LineTerminator code units below 256:
    TAB, LF, VT, FF, CR, SP and NBSP. *)
Definition isWhiteSpace (c : ascii) : bool :=
  let n := nat_of_ascii c in
  (n =? 9) || (n =? 10) || (n =? 11) || (n =? 12) || (n =? 13)
  || (n =? 32) || (n =? 160).

Fixpoint dropWhile {A : Type} (f : A -> bool) (l : list A) : list A :=
  match l with
  | [] => []
  | x :: l' => if f x then dropWhile f l' else l
  end.

(** [String.prototype.trim] *)
Definition trimStart (s : jsstring) : jsstring := dropWhile isWhiteSpace s.
Definition trimEnd (s : jsstring) : jsstring :=
  rev (dropWhile isWhiteSpace (rev s)).
Definition trim (s : jsstring) : jsstring := trimEnd (trimStart s).

(** [s.replace] with the global pattern of one double quote and the
    empty replacement: every double quote is removed. *)
Definition stripQuotes (s : jsstring) : jsstring :=
  filter (fun c => negb (Ascii.eqb c dquote)) s.

(** [s.split] on a comma: the fields between commas; the empty string
    has one (empty) field. *)
Fixpoint splitComma (s : jsstring) : list jsstring :=
  match s with
  | [] => [[]]
  | c :: s' =>
      if Ascii.eqb c comma then [] :: splitComma s'
      else match splitComma s' with
           | f :: fs => (c :: f) :: fs
           | [] => [[c]]
           end
  end.

(** [s.split(/\r?\n/)]: a separator is LF, or CR immediately followed by
    LF; a CR that is not followed by LF stays in its line. *)
Fixpoint splitLines (s : jsstring) : list jsstring :=
  match s with
  | [] => [[]]
  | c :: s' =>
      if Ascii.eqb c LF then [] :: splitLines s'
      else if Ascii.eqb c CR && match s' with
                                | d :: _ => Ascii.eqb d LF
                                | [] => false
                                end
      then splitLines s'
      else match splitLines s' with
           | l :: ls => (c :: l) :: ls
           | [] => [[c]]
           end
  end.

(** Truthiness of a string: only the empty string is falsy. *)
Definition truthy (s : jsstring) : bool :=
  match s with [] => false | _ :: _ => true end.

(** [p] is a prefix of [s]. *)
Fixpoint isPrefix (p s : jsstring) : bool :=
  match p, s with
  | [], _ => true
  | _ :: _, [] => false
  | a :: p', b :: s' => Ascii.eqb a b && isPrefix p' s'
  end.

(** [s.indexOf(p)], counted from [k]: the least position at which [p]
    starts ([None] is JavaScript's -1). *)
Fixpoint indexOfFrom (p s : jsstring) (k : nat) : option nat :=
  if isPrefix p s then Some k
  else match s with
       | [] => None
       | _ :: s' => indexOfFrom p s' (S k)
       end.

Definition indexOf (p s : jsstring) : option nat := indexOfFrom p s 0.

(** GetSubstitution for a string pattern (no captures): in the
    replacement text [$$] is a dollar sign, [$&] the matched text, [$`]
    the text before the match and [$'] the text after it; every other
    character, a lone dollar sign included, stands for itself. *)
Fixpoint getSubstitution (matched before after repl : jsstring) : jsstring :=
  match repl with
  | [] => []
  | c :: r =>
      if Ascii.eqb c dollar then
        match r with
        | d :: r' =>
            if Ascii.eqb d dollar then dollar :: getSubstitution matched before after r'
            else if Ascii.eqb d "&"%char then matched ++ getSubstitution matched before after r'
            else if Ascii.eqb d "`"%char then before ++ getSubstitution matched before after r'
            else if Ascii.eqb d "'"%char then after ++ getSubstitution matched before after r'
            else c :: getSubstitution matched before after r
        | [] => [c]
        end
      else c :: getSubstitution matched before after r
  end.

(** [s.replace(p, v)] with a string pattern [p]: only the first
    occurrence of [p] is replaced. *)
Definition replace (s p v : jsstring) : jsstring :=
  match indexOf p s with
  | None => s
  | Some k =>
      let before := firstn k s in
      let after := skipn (k + length p) s in
      before ++ getSubstitution p before after v ++ after
  end.

(** [parts.join(sep)] for a separator of one character. *)
Fixpoint join (sep : ascii) (parts : list jsstring) : jsstring :=
  match parts with
  | [] => []
  | [x] => x
  | x :: rest => x ++ sep :: join sep rest
  end.

(** [p] occurs nowhere in [s]. *)
Definition NoOccurrence (p s : jsstring) : Prop :=
  forall pre post, s <> pre ++ p ++ post.

(** In [pre ++ p ++ post] the occurrence of [p] behind [pre] is the
    first one: no occurrence starts further left. *)
Definition FirstOccurrence (p pre post : jsstring) : Prop :=
  forall pre' post',
    pre ++ p ++ post = pre' ++ p ++ post' -> length pre <= length pre'.

End JsString.
Import JsString.

(* ================================================================= *)
(** ** parseWindowsCSV *)

Module Csv.

(** [parts => parts.length > 0 && parts[0]] *)
Definition keepRow (parts : list jsstring) : bool :=
  (0 <? length parts) && truthy (nth 0 parts []).

Definition parseWindowsCSV (csvOutput : jsstring) : list (list jsstring) :=
  filter keepRow
    (map (fun line => splitComma (stripQuotes line))
       (splitLines (trim csvOutput))).

(** The rows of all lines, before filtering. *)
Definition rowsOfLines (csvOutput : jsstring) : list (list jsstring) :=
  map (fun line => splitComma (stripQuotes line))
    (splitLines (trim csvOutput)).

(** The first field of the row exists and has at least one character. *)
Definition firstFieldNonEmpty (row : list jsstring) : bool :=
  match row with
  | (_ :: _) :: _ => true
  | _ => false
  end.

(** [l1] is [l2] with some elements left out, the others in their order. *)
Inductive Subsequence {A : Type} : list A -> list A -> Prop :=
| sub_nil : Subsequence [] []
| sub_skip x l1 l2 : Subsequence l1 l2 -> Subsequence l1 (x :: l2)
| sub_keep x l1 l2 : Subsequence l1 l2 -> Subsequence (x :: l1) (x :: l2).

(** The reading under which a row is dropped when its first field is
    empty after trimming that field: every row that is returned has a
    first field with something other than white space in it. *)
Definition dropsBlankFirstFields (csvOutput : jsstring) : Prop :=
  forall row,
    In row (parseWindowsCSV csvOutput) -> trim (nth 0 row []) <> [].

End Csv.

Import Csv.

(* ================================================================= *)
(** ** Thrown values and completions *)

Module Js.

(** The [code] property of an error: an errno name such as ENOENT, or
    the exit status of the child process. *)
Inductive ErrCode : Type :=
| CodeString (s : jsstring)
| CodeNumber (n : nat).

(** An instance of [Error]: its message and, when present, its [code]. *)
Record JsError : Type := mkError {
  message : jsstring;
  code : option ErrCode
}.

(** Anything can be thrown: an [Error], or a value that is not one. *)
Inductive Thrown : Type :=
| ThrownError (e : JsError)
| ThrownValue (v : jsstring).

(** [new Error(msg)] *)
Definition newError (msg : jsstring) : Thrown :=
  ThrownError {| message := msg; code := None |}.

(** How a call ends: it returns a value or throws one (for an async
    function: its promise is fulfilled or rejected). *)
Inductive Completion (A : Type) : Type :=
| Returned (a : A)
| Threw (t : Thrown).
Arguments Returned {A} a.
Arguments Threw {A} t.

(** A computation over a state [S]. *)
Definition M (S A : Type) : Type := S -> S * Completion A.

Definition ret {S A : Type} (a : A) : M S A := fun s => (s, Returned a).

Definition throw {S A : Type} (t : Thrown) : M S A := fun s => (s, Threw t).

Definition bind {S A B : Type} (m : M S A) (k : A -> M S B) : M S B :=
  fun s =>
    match m s with
    | (s', Returned a) => k a s'
    | (s', Threw t) => (s', Threw t)
    end.

(** [try { body } catch (error) { handler }]: what [body] did to the
    state before it threw stays done. *)
Definition tryCatch {S A : Type} (body : M S A) (handler : Thrown -> M S A)
  : M S A :=
  fun s =>
    match body s with
    | (s', Returned a) => (s', Returned a)
    | (s', Threw t) => handler t s'
    end.

End Js.
Import Js.

Declare Scope js_scope.
Delimit Scope js_scope with js.
Notation "x <- m ;; k" := (bind m (fun x => k))
  (at level 61, m at next level, right associativity) : js_scope.
Notation "m ;; k" := (bind m (fun _ => k))
  (at level 61, right associativity) : js_scope.

(* ================================================================= *)
(** ** parseCustomCommand *)

Module Template.

Fixpoint takeWhile {A : Type} (f : A -> bool) (l : list A) : list A :=
  match l with
  | [] => []
  | x :: l' => if f x then x :: takeWhile f l' else []
  end.

(** First alternative of the pattern, tried at the head of [s]: a double
    quote, one or more characters that are not a double quote (as many as
    there are), and a double quote. *)
Definition matchQuoted (s : jsstring) : option jsstring :=
  match s with
  | c :: r =>
      if Ascii.eqb c dquote then
        let run := takeWhile (fun d => negb (Ascii.eqb d dquote)) r in
        match run, skipn (length run) r with
        | _ :: _, d :: _ =>
            if Ascii.eqb d dquote then Some (c :: run ++ [d]) else None
        | _, _ => None
        end
      else None
  | [] => None
  end.

(** Second alternative, as the source writes it: an escaped backslash,
    that is one backslash character, followed by one or more capital S. *)
Definition matchBackslashS (s : jsstring) : option jsstring :=
  match s with
  | c :: r =>
      if Ascii.eqb c backslash then
        match takeWhile (fun d => Ascii.eqb d "S"%char) r with
        | [] => None
        | run => Some (c :: run)
        end
      else None
  | [] => None
  end.

Definition matchAt (s : jsstring) : option jsstring :=
  match matchQuoted s with
  | Some tok => Some tok
  | None => matchBackslashS s
  end.

(** [command.match(pattern) || []] with the global flag: the matches from
    left to right; after a match the search resumes behind it, so [skip]
    counts the characters of the last match still to pass over. *)
Fixpoint matchAllFrom (skip : nat) (s : jsstring) : list jsstring :=
  match s with
  | [] => []
  | _ :: s' =>
      match skip with
      | S k => matchAllFrom k s'
      | O =>
          match matchAt s with
          | Some tok => tok :: matchAllFrom (length tok - 1) s'
          | None => matchAllFrom 0 s'
          end
      end
  end.

Definition matchAll (command : jsstring) : list jsstring :=
  matchAllFrom 0 command.

Record CommandSpec : Type := mkSpec {
  executable : jsstring;
  args : list jsstring
}.

(** The callback of [map]: quotes are removed, then each entry of
    [Object.entries(replacements)], in that order, replaces in the
    running [processedArg]. *)
Definition processArg (replacements : list (jsstring * jsstring))
    (arg : jsstring) : jsstring :=
  fold_left
    (fun processedArg entry => replace processedArg (fst entry) (snd entry))
    replacements (stripQuotes arg).

Definition invalidCommandFormat : Thrown :=
  newError (str "Invalid command format").

(** [replacements] is the object given as its entries, in the order of
    [Object.entries]. *)
Definition parseCustomCommand (command : jsstring)
    (replacements : list (jsstring * jsstring)) : Completion CommandSpec :=
  match matchAll command with
  | [] => Threw invalidCommandFormat
  | first :: rest =>
      Returned {| executable := stripQuotes first;
                  args := map (processArg replacements) rest |}
  end.

(** What the entries do to one argument, stated on occurrences: the
    entries are taken in order; an entry whose placeholder does not occur
    in the running text leaves it as it is; otherwise the first
    occurrence, and only that one, gives way to the expansion of the
    entry's value, and the next entries go on from the new text. *)
Inductive Substituted :
  list (jsstring * jsstring) -> jsstring -> jsstring -> Prop :=
| subst_done s :
    Substituted [] s s
| subst_absent p v more s s' :
    NoOccurrence p s ->
    Substituted more s s' ->
    Substituted ((p, v) :: more) s s'
| subst_first p v more pre post s' :
    FirstOccurrence p pre post ->
    Substituted more (pre ++ getSubstitution p pre post v ++ post) s' ->
    Substituted ((p, v) :: more) (pre ++ p ++ post) s'.

(** The reading under which every occurrence is replaced: after parsing,
    no argument holds an occurrence of a placeholder any more. *)
Definition noPlaceholderLeft (command : jsstring)
    (replacements : list (jsstring * jsstring)) : Prop :=
  forall spec arg p v,
    parseCustomCommand command replacements = Returned spec ->
    In arg (args spec) ->
    In (p, v) replacements ->
    indexOf p arg = None.

(** The template of two quoted tokens, [x] and [%s %s]. *)
Definition twice : jsstring :=
  quoted (str "x") ++ str " " ++ quoted (str "%s %s").

End Template.
Import Template.

(* ================================================================= *)
(** ** executeWindowsCommand and its clients *)

Module Exec.

Fixpoint eqb (a b : jsstring) : bool :=
  match a, b with
  | [], [] => true
  | x :: a', y :: b' => Ascii.eqb x y && eqb a' b'
  | _, _ => false
  end.

(** What the promisified [exec] is fulfilled with. *)
Record ExecOutput : Type := mkOutput {
  stdout : jsstring;
  stderr : jsstring
}.

(** [error instanceof Error && "code" in error && error.code === "ENOENT"] *)
Definition isENOENT (error : Thrown) : bool :=
  match error with
  | ThrownError e =>
      match code e with
      | Some (CodeString c) => eqb c (str "ENOENT")
      | _ => false
      end
  | ThrownValue _ => false
  end.

Definition commandNotFound : Thrown :=
  newError
    (str "Command not found. Please ensure the tool is installed and in PATH.").

Record ProcessRecord : Type := mkProcess {
  name : jsstring;
  pid : jsstring;
  sessionName : jsstring;
  sessionNumber : jsstring;
  memoryUsage : jsstring
}.

(** [parts[i]] or else the empty string: a missing field reads as the
    empty string. *)
Definition field (parts : list jsstring) (i : nat) : jsstring :=
  nth i parts [].

Definition toProcessRecord (parts : list jsstring) : ProcessRecord :=
  {| name := field parts 0;
     pid := field parts 1;
     sessionName := field parts 2;
     sessionNumber := field parts 3;
     memoryUsage := field parts 4 |}.

Section Executor.

Variable World : Type.

(** [execAsync], the promisified [child_process.exec]: the operating
    system, seen as a computation over the state of the world. *)
Variable execAsync : jsstring -> M World ExecOutput.

Definition fullCommand (command : jsstring) : jsstring :=
  str "chcp 65001 > nul && " ++ command.

Definition executeWindowsCommand (command : jsstring) : M World jsstring :=
  tryCatch
    (out <- execAsync (fullCommand command) ;;
     ret (trim (stdout out)))%js
    (fun error =>
       if isENOENT error then throw commandNotFound else throw error).

Definition getProcessList : M World (list ProcessRecord) :=
  (output <- executeWindowsCommand (str "tasklist /nh /fo csv") ;;
   ret (map toProcessRecord (parseWindowsCSV output)))%js.

Definition isToolAvailable (toolName : jsstring) : M World bool :=
  tryCatch
    (executeWindowsCommand (str "where " ++ toolName) ;; ret true)%js
    (fun _ => ret false).

End Executor.

Arguments executeWindowsCommand {World} execAsync command.
Arguments getProcessList {World} execAsync.
Arguments isToolAvailable {World} execAsync toolName.

(** [error] is an [Error] whose [code] is the errno name [c]. *)
Definition hasCode (c : jsstring) (error : Thrown) : bool :=
  match error with
  | ThrownError e =>
      match code e with
      | Some (CodeString c') => eqb c' c
      | _ => false
      end
  | ThrownValue _ => false
  end.

(** A failure to launch: the executable is not found (ENOENT), or access
    to it is refused (EACCES, EPERM). *)
Definition isLaunchFailure (error : Thrown) : bool :=
  hasCode (str "ENOENT") error
  || hasCode (str "EACCES") error
  || hasCode (str "EPERM") error.

(** The reading under which every launch failure is classified: none
    leaves the executor as the very error the operating system gave. *)
Definition launchFailuresClassified : Prop :=
  forall (World : Type) (execAsync : jsstring -> M World ExecOutput)
         (command : jsstring) (w w' : World) (error : Thrown),
    isLaunchFailure error = true ->
    execAsync (fullCommand command) w = (w', Threw error) ->
    executeWindowsCommand execAsync command w <> (w', Threw error).

(** An access refusal, as [child_process] reports it. *)
Definition accessDenied : Thrown :=
  ThrownError {| message := str "spawn EACCES";
                 code := Some (CodeString (str "EACCES")) |}.

(** An operating system on which every launch is refused. *)
Definition refusing : jsstring -> M unit ExecOutput :=
  fun _ => throw accessDenied.

(** One line of [tasklist /nh /fo csv]: five quoted fields, the last of
    them with a comma inside. *)
Definition tasklistRow : jsstring :=
  quoted (str "notepad.exe") ++ [comma] ++ quoted (str "1234") ++ [comma]
  ++ quoted (str "Console") ++ [comma] ++ quoted (str "1") ++ [comma]
  ++ quoted (str "15,000 K").

(** An operating system whose every command prints [tasklistRow]. *)
Definition printingRow : jsstring -> M unit ExecOutput :=
  fun _ => ret {| stdout := tasklistRow; stderr := [] |}.

End Exec.
Import Exec.

(* ================================================================= *)
(** ** processItemsWithRecovery *)

Module Bulk.

Record Results : Type := mkResults {
  successful : nat;
  failed : nat;
  errors : list jsstring
}.

(** [error instanceof Error ? error.message : "Unknown error"] *)
Definition errorMessage (error : Thrown) : jsstring :=
  match error with
  | ThrownError e => message e
  | ThrownValue _ => str "Unknown error"
  end.

(** [results.successful++] *)
Definition recordSuccess (results : Results) : Results :=
  {| successful := successful results + 1;
     failed := failed results;
     errors := errors results |}.

(** [results.failed++; results.errors.push(...)] *)
Definition recordFailure (results : Results) (error : Thrown) : Results :=
  {| successful := successful results;
     failed := failed results + 1;
     errors := errors results ++ [errorMessage error] |}.

(** The outcome the function starts from. *)
Definition noResults : Results :=
  {| successful := 0; failed := 0; errors := [] |}.

Section Runner.

Variables T World : Type.

(** What the processor and the progress callback act on: the outside
    world and the array [items] itself.  The caller still holds the
    array, so a callback can change it while the loop waits; the loop
    reads [items.length] and [items[i]] again at every step. *)
Definition Store : Type := (World * list T)%type.

Definition itemsOf (s : Store) : list T := snd s.

(** [onProgress?.(completed, items.length)]: the length is the one the
    array has when the call is made. *)
Definition callOnProgress (onProgress : option (nat -> nat -> M Store unit))
    (completed : nat) : M Store unit :=
  match onProgress with
  | Some cb => fun s => cb completed (length (itemsOf s)) s
  | None => ret tt
  end.

(** The body of the [for] loop at index [i], where [item] is [items[i]]. *)
Definition body (processor : T -> M Store unit)
    (onProgress : option (nat -> nat -> M Store unit))
    (i : nat) (item : T) (results : Results) : M Store Results :=
  (results' <-
     tryCatch
       (processor item ;; ret (recordSuccess results))
       (fun error => ret (recordFailure results error)) ;;
   callOnProgress onProgress (i + 1) ;;
   ret results')%js.

(** The [for] loop from index [i] on.  The test [i < items.length] and
    the read of [items[i]] are one look at the array as it is now.  A
    callback that makes the array longer can keep the loop going for
    ever, so the loop is given [fuel], one unit per pass of the body:
    [None] says that the fuel did not suffice. *)
Fixpoint loop (fuel : nat) (processor : T -> M Store unit)
    (onProgress : option (nat -> nat -> M Store unit))
    (i : nat) (results : Results) (s : Store)
  : option (Store * Completion Results) :=
  match nth_error (itemsOf s) i with
  | None => Some (s, Returned results)
  | Some item =>
      match fuel with
      | O => None
      | S fuel' =>
          match body processor onProgress i item results s with
          | (s', Returned results') =>
              loop fuel' processor onProgress (S i) results' s'
          | (s', Threw t) => Some (s', Threw t)
          end
      end
  end.

(** The function called on the array [items] in the world [w]. *)
Definition processItemsWithRecovery (fuel : nat) (items : list T)
    (processor : T -> M Store unit)
    (onProgress : option (nat -> nat -> M Store unit)) (w : World)
  : option (Store * Completion Results) :=
  loop fuel processor onProgress 0 noResults (w, items).

(** What the [try] block with its [catch] makes of the outcome: one
    success or one failure more, as the processor ends on [item]. *)
Definition attempted (processor : T -> M Store unit) (item : T)
    (results : Results) (s : Store) : Results :=
  match snd (processor item s) with
  | Returned _ => recordSuccess results
  | Threw t => recordFailure results t
  end.

(** A computation that leaves the array as it is. *)
Definition KeepsArray {A : Type} (m : M Store A) : Prop :=
  forall s, itemsOf (fst (m s)) = itemsOf s.

Definition ProcessorKeepsArray (processor : T -> M Store unit) : Prop :=
  forall item, KeepsArray (processor item).

Definition CallbackKeepsArray
    (onProgress : option (nat -> nat -> M Store unit)) : Prop :=
  forall cb, onProgress = Some cb -> forall c t, KeepsArray (cb c t).

(** The progress callback, if there is one, never throws. *)
Definition CallbackReturns
    (onProgress : option (nat -> nat -> M Store unit)) : Prop :=
  forall cb, onProgress = Some cb ->
             forall c t s, snd (cb c t s) = Returned tt.

(** The thrown value [t] came out of a call of the progress callback. *)
Definition thrownByCallback
    (onProgress : option (nat -> nat -> M Store unit)) (t : Thrown) : Prop :=
  exists cb completed total s0 s1,
    onProgress = Some cb /\ cb completed total s0 = (s1, Threw t).

(** A computation on the world alone, as one on the store: it neither
    reads nor changes the array. *)
Definition aside {A : Type} (m : M World A) : M Store A :=
  fun s =>
    match m (fst s) with
    | (w', r) => ((w', snd s), r)
    end.

(** The loop when nothing changes the array: [rest] holds [items[i]]
    and the items behind it, [total] is [items.length]. *)
Fixpoint loopOver (processor : T -> M Store unit)
    (onProgress : option (nat -> nat -> M Store unit))
    (rest : list T) (i total : nat) (results : Results) : M Store Results :=
  match rest with
  | [] => ret results
  | item :: rest' =>
      (results' <-
         tryCatch
           (processor item ;; ret (recordSuccess results))
           (fun error => ret (recordFailure results error)) ;;
       match onProgress with
       | Some cb => cb (i + 1) total
       | None => ret tt
       end ;;
       loopOver processor onProgress rest' (S i) total results')%js
  end.

(** The calls made to the two callbacks. *)
Inductive Call : Type :=
| ProcessorCall (item : T)
| ProgressCall (completed total : nat).

(** The store with a list of calls beside the world. *)
Definition Noted : Type := ((World * list Call) * list T)%type.

Definition forget (s : Noted) : Store := (fst (fst s), snd s).

Definition noted (c : Call) (s : Noted) (s' : Store) : Noted :=
  ((fst s', snd (fst s) ++ [c]), snd s').

(** A processor that, whenever it is called, also writes the call down. *)
Definition noting (processor : T -> M Store unit) : T -> M Noted unit :=
  fun item s =>
    match processor item (forget s) with
    | (s', r) => (noted (ProcessorCall item) s s', r)
    end.

(** A progress callback that, whenever it is called, also writes the
    call down, with the two arguments it was given. *)
Definition notingProgress (cb : nat -> nat -> M Store unit)
  : nat -> nat -> M Noted unit :=
  fun completed total s =>
    match cb completed total (forget s) with
    | (s', r) => (noted (ProgressCall completed total) s s', r)
    end.

(** The [completed] and [total] of the progress calls of a list. *)
Fixpoint progressCalls (log : list Call) : list (nat * nat) :=
  match log with
  | [] => []
  | ProcessorCall _ :: log' => progressCalls log'
  | ProgressCall c t :: log' => (c, t) :: progressCalls log'
  end.

(** One processor call per item, each followed at once by its progress
    call, counting from [completed]. *)
Fixpoint alternating (items : list T) (completed total : nat) : list Call :=
  match items with
  | [] => []
  | item :: rest =>
      ProcessorCall item :: ProgressCall completed total
        :: alternating rest (S completed) total
  end.

(** The reading of the count invariant for every operation: whenever
    the function returns an outcome for the array [items], the two
    counts add up to the length [items] had at the call, and there is
    one message per failure. *)
Definition countsAddUp (items : list T) (processor : T -> M Store unit)
    (onProgress : option (nat -> nat -> M Store unit)) (w : World) : Prop :=
  forall fuel s r,
    processItemsWithRecovery fuel items processor onProgress w
    = Some (s, Returned r) ->
    successful r + failed r = length items
    /\ length (errors r) = failed r.

End Runner.

Arguments itemsOf {T World} s.
Arguments callOnProgress {T World} onProgress completed.
Arguments body {T World} processor onProgress i item results.
Arguments loop {T World} fuel processor onProgress i results s.
Arguments processItemsWithRecovery {T World} fuel items processor onProgress w.
Arguments attempted {T World} processor item results s.
Arguments KeepsArray {T World A} m.
Arguments ProcessorKeepsArray {T World} processor.
Arguments CallbackKeepsArray {T World} onProgress.
Arguments CallbackReturns {T World} onProgress.
Arguments thrownByCallback {T World} onProgress t.
Arguments aside {T World A} m.
Arguments loopOver {T World} processor onProgress rest i total results.
Arguments ProcessorCall {T} item.
Arguments ProgressCall {T} completed total.
Arguments forget {T World} s.
Arguments noted {T World} c s s'.
Arguments noting {T World} processor item.
Arguments notingProgress {T World} cb completed total.
Arguments progressCalls {T} log.
Arguments alternating {T} items completed total.
Arguments countsAddUp {T World} items processor onProgress w.

(** The reading of the progress claim for every operation and callback:
    whatever the run over [items] comes to, the progress callback has
    been called with [completed] going from 1 to the length [items] had
    at the call, and with that length as [total]. *)
Definition progressOnceAfterEachItem {T World : Type} (items : list T)
    (processor : T -> M (Store T World) unit)
    (cb : nat -> nat -> M (Store T World) unit) (w : World) : Prop :=
  forall fuel s c,
    processItemsWithRecovery fuel items (noting processor)
      (Some (notingProgress cb)) (w, [])
    = Some (s, c) ->
    progressCalls (snd (fst s))
    = map (fun k => (k, length items)) (seq 1 (length items)).

(** A processor that throws on the item 2 and succeeds on every other. *)
Definition failsOnTwo (item : nat) : M (Store nat unit) unit :=
  if item =? 2 then throw (newError (str "no 2")) else ret tt.

(** A progress callback that does nothing. *)
Definition silent : nat -> nat -> M (Store nat unit) unit :=
  fun _ _ => ret tt.

(** A processor that succeeds on every item and takes the last element
    off the array each time, as [items.pop()] does. *)
Definition popping (item : nat) : M (Store nat unit) unit :=
  fun s => ((fst s, removelast (snd s)), Returned tt).

(** A processor that does nothing. *)
Definition idle (item : nat) : M (Store nat unit) unit := ret tt.

(** A progress callback that throws whenever it is called. *)
Definition stopping : nat -> nat -> M (Store nat unit) unit :=
  fun _ _ => throw (newError (str "stop")).

End Bulk.
Import Bulk.


(* ================================================================= *)
(** ** More string operations *)

Module Text.

(** [parts.join(sep)] *)
Fixpoint joinSep (sep : jsstring) (parts : list jsstring) : jsstring :=
  match parts with
  | [] => []
  | [x] => x
  | x :: rest => x ++ sep ++ joinSep sep rest
  end.

(** A count in a template literal: its decimal digits. *)
Definition numberToString (n : nat) : jsstring :=
  str (NilEmpty.string_of_uint (Nat.to_uint n)).

(** [s.includes(p)] *)
Definition includes (s p : jsstring) : bool :=
  match indexOf p s with
  | Some _ => true
  | None => false
  end.

(** Every character of [s] is white space. *)
Definition Blank (s : jsstring) : Prop :=
  Forall (fun c => isWhiteSpace c = true) s.

(** [s] without its carriage returns. *)
Definition withoutCR (s : jsstring) : jsstring :=
  filter (fun c => negb (Ascii.eqb c CR)) s.

(** Carriage returns stand only in CR LF line ends: each CR of [s] has
    an LF right behind it. *)
Fixpoint crOnlyBeforeLF (s : jsstring) : bool :=
  match s with
  | [] => true
  | c :: s' =>
      (if Ascii.eqb c CR
       then match s' with
            | d :: _ => Ascii.eqb d LF
            | [] => false
            end
       else true)
      && crOnlyBeforeLF s'
  end.

(** None of the characters that the CSV reader takes out or cuts at. *)
Definition Plain (f : jsstring) : Prop :=
  ~ In dquote f /\ ~ In comma f /\ ~ In LF f.

(** The words in double quotes, one space between them. *)
Definition render (words : list jsstring) : jsstring :=
  joinSep (str " ") (map quoted words).

(** A word that can stand between double quotes: not empty, and without
    a double quote of its own. *)
Definition Quotable (word : jsstring) : Prop :=
  word <> [] /\ ~ In dquote word.

End Text.
Import Text.

(* ================================================================= *)
(** ** The other helpers of windows-helpers.ts *)

Module Tools.

(** A completion that is already there, as a computation. *)
Definition lift {S A : Type} (c : Completion A) : M S A := fun s => (s, c).

Section Commands.

Variable World : Type.
Variable execAsync : jsstring -> M World ExecOutput.

(** [execFileAsync], the promisified [child_process.execFile]: it takes
    the executable and the list of its arguments. *)
Variable execFileAsync : jsstring -> list jsstring -> M World ExecOutput.

Definition executeCustomCommand (command : jsstring)
    (replacements : list (jsstring * jsstring)) : M World jsstring :=
  (spec <- lift (parseCustomCommand command replacements) ;;
   out <- execFileAsync (executable spec) (args spec) ;;
   ret (trim (stdout out)))%js.

Definition killProcess (pid : jsstring) : M World unit :=
  (executeWindowsCommand execAsync (str "taskkill /F /PID " ++ pid) ;;
   ret tt)%js.

Definition killProcessByName (name : jsstring) : M World unit :=
  (executeWindowsCommand execAsync (str "taskkill /F /IM " ++ quoted name) ;;
   ret tt)%js.

Definition openInExplorer (path : jsstring) : M World unit :=
  (executeWindowsCommand execAsync
     (str "explorer.exe /select," ++ quoted path) ;;
   ret tt)%js.

Definition everythingNotFound : Thrown :=
  newError
    (str "Everything CLI not found. Please install Everything and its CLI tool.").

(** [error instanceof Error && error.message.includes("not found")] *)
Definition saysNotFound (error : Thrown) : bool :=
  match error with
  | ThrownError e => includes (message e) (str "not found")
  | ThrownValue _ => false
  end.

(** The command line of the search; [maxResults] is a count, and
    without one the default is 100. *)
Definition everythingCommand (query : jsstring) (maxResults : option nat)
  : jsstring :=
  let limit := match maxResults with Some n => n | None => 100 end in
  str "es.exe -n " ++ numberToString limit ++ str " " ++ query.

Definition searchWithEverything (query : jsstring) (maxResults : option nat)
  : M World (list jsstring) :=
  tryCatch
    (let command := everythingCommand query maxResults in
     output <- executeWindowsCommand execAsync command ;;
     ret (filter (fun path => truthy (trim path)) (splitLines output)))%js
    (fun error =>
       if saysNotFound error then throw everythingNotFound else throw error).

End Commands.

Arguments executeCustomCommand {World} execFileAsync command replacements.
Arguments killProcess {World} execAsync pid.
Arguments killProcessByName {World} execAsync name.
Arguments openInExplorer {World} execAsync path.
Arguments searchWithEverything {World} execAsync query maxResults.

(** An executor that also writes down each command line it is given. *)
Definition recording {World : Type}
    (execAsync : jsstring -> M World ExecOutput)
  : jsstring -> M (World * list jsstring) ExecOutput :=
  fun command st =>
    match execAsync command (fst st) with
    | (w', r) => ((w', snd st ++ [command]), r)
    end.

(** [Toast.Style] *)
Inductive ToastStyle : Type := Success | Failure | Animated.

Record ToastOptions : Type := mkToast {
  style : ToastStyle;
  title : jsstring;
  message : jsstring
}.

Section Toasts.

Variable World : Type.

(** [showToast] of the Raycast API. *)
Variable showToast : ToastOptions -> M World unit.

Definition showProcessingResults (results : Results) (operation : jsstring)
  : M World unit :=
  if failed results =? 0 then
    showToast
      {| style := Success;
         title := operation ++ str " completed";
         message := str "Successfully processed "
                    ++ numberToString (successful results) ++ str " items" |}
  else if successful results =? 0 then
    showToast
      {| style := Failure;
         title := operation ++ str " failed";
         message := joinSep (str "; ") (firstn 3 (errors results)) |}
  else
    showToast
      {| style := Failure;
         title := operation ++ str " partially completed";
         message := numberToString (successful results)
                    ++ str " succeeded, "
                    ++ numberToString (failed results) ++ str " failed" |}.

End Toasts.

Arguments showProcessingResults {World} showToast results operation.

(** [process.env.NAME || fallback]: the fallback stands in when the
    variable is not set or is the empty string. *)
Definition orElse (value : option jsstring) (fallback : jsstring) : jsstring :=
  match value with
  | Some (c :: s) => c :: s
  | _ => fallback
  end.

Record WindowsPaths : Type := mkPaths {
  userProfile : jsstring;
  programFiles : jsstring;
  programFilesX86 : jsstring;
  systemRoot : jsstring;
  temp : jsstring;
  appData : jsstring;
  localAppData : jsstring
}.

(** [env] is [process.env]: a variable that is not set reads as [None]. *)
Definition getWindowsPaths (env : jsstring -> option jsstring)
  : WindowsPaths :=
  {| userProfile := orElse (env (str "USERPROFILE")) (str "C:\Users\Default");
     programFiles := orElse (env (str "PROGRAMFILES")) (str "C:\Program Files");
     programFilesX86 :=
       orElse (env (str "PROGRAMFILES(X86)")) (str "C:\Program Files (x86)");
     systemRoot := orElse (env (str "SYSTEMROOT")) (str "C:\Windows");
     temp := orElse (env (str "TEMP")) (str "C:\Windows\Temp");
     appData :=
       orElse (env (str "APPDATA")) (str "C:\Users\Default\AppData\Roaming");
     localAppData :=
       orElse (env (str "LOCALAPPDATA"))
         (str "C:\Users\Default\AppData\Local") |}.

(** The command line that [killProcess] has executed. *)
Definition killCommand (pid : jsstring) : jsstring :=
  fullCommand (str "taskkill /F /PID " ++ pid).

(** The processor of a bulk kill: [killProcess], which acts on the world
    alone, with an executor that writes down its command lines, and
    writing down each call of its own. *)
Definition killing (World : Type) (execAsync : jsstring -> M World ExecOutput)
  : jsstring
    -> M (Store jsstring ((World * list jsstring) * list (Call jsstring)))
         unit :=
  noting (fun pid => aside (killProcess (recording execAsync) pid)).

(** A processor on the world alone that throws on the item 2. *)
Definition refusesTwo (item : nat) : M unit unit :=
  if item =? 2 then throw (newError (str "no 2")) else ret tt.

(** The outcomes of two batches, added up. *)
Definition addResults (r1 r2 : Results) : Results :=
  {| successful := successful r1 + successful r2;
     failed := failed r1 + failed r2;
     errors := errors r1 ++ errors r2 |}.

(** The messages of the items on which the processor throws, in the
    order of the items, when [verdict] tells how the processor ends on
    each item. *)
Definition failureMessages {T : Type} (verdict : T -> Completion unit)
    (items : list T) : list jsstring :=
  flat_map
    (fun item =>
       match verdict item with
       | Threw t => [errorMessage t]
       | Returned _ => []
       end)
    items.

(** The error of a launch whose executable does not exist. *)
Definition noSuchFile : Thrown :=
  ThrownError {| Js.message := str "spawn ENOENT";
                 code := Some (CodeString (str "ENOENT")) |}.

(** An [execFile] on which every launch fails with ENOENT. *)
Definition missing : jsstring -> list jsstring -> M unit ExecOutput :=
  fun _ _ => throw noSuchFile.

(** An [exec] on which every launch fails with ENOENT. *)
Definition absent : jsstring -> M unit ExecOutput :=
  fun _ => throw noSuchFile.

(** An executor that prints two paths with an empty line between them. *)
Definition printingPaths : jsstring -> M unit ExecOutput :=
  fun _ =>
    ret {| stdout := str "C:\a.txt" ++ [CR; LF; CR; LF] ++ str "C:\b c.txt"
                     ++ [CR; LF];
           stderr := [] |}.

(** A toast function that shows nothing. *)
Definition noToast : ToastOptions -> M unit unit := fun _ => ret tt.

End Tools.
Import Tools.

(* ================================================================= *)
(** ** Splitting and stripping *)

Module SplitFacts.

Lemma splitComma_nonempty (s : jsstring) : splitComma s <> [].
Proof.
  destruct s as [|c s]; simpl; [discriminate|].
  destruct (Ascii.eqb c comma); [discriminate|].
  destruct (splitComma s); discriminate.
Qed.

(** Splitting loses nothing: the fields joined by commas are the text. *)
Lemma splitComma_join (s : jsstring) : join comma (splitComma s) = s.
Proof.
  induction s as [|c s IH]; simpl; [reflexivity|].
  destruct (Ascii.eqb c comma) eqn:E.
  - apply Ascii.eqb_eq in E. subst c.
    pose proof (splitComma_nonempty s) as N.
    destruct (splitComma s) as [|f fs]; [contradiction|].
    simpl in *. now rewrite IH.
  - pose proof (splitComma_nonempty s) as N.
    destruct (splitComma s) as [|f fs]; [contradiction|].
    rewrite <- IH. destruct fs; reflexivity.
Qed.

(** No field holds a comma. *)
Lemma splitComma_fields (s : jsstring) :
  Forall (fun f => ~ In comma f) (splitComma s).
Proof.
  induction s as [|c s IH]; simpl.
  - constructor; auto.
  - destruct (Ascii.eqb c comma) eqn:E.
    + constructor; auto.
    + destruct (splitComma s) as [|f fs]; constructor.
      * simpl. intros [-> | []]. now rewrite Ascii.eqb_refl in E.
      * constructor.
      * inversion_clear IH as [|? ? Hf Hfs]. intros [-> | Hin]; auto.
        now rewrite Ascii.eqb_refl in E.
      * now inversion IH.
Qed.

Lemma splitLines_nonempty (s : jsstring) : splitLines s <> [].
Proof.
  induction s as [|c s IH]; simpl; [discriminate|].
  destruct (Ascii.eqb c LF); [discriminate|].
  destruct (_ && _); [assumption|].
  destruct (splitLines s); discriminate.
Qed.

(** No line holds a line feed. *)
Lemma splitLines_lines (s : jsstring) :
  Forall (fun l => ~ In LF l) (splitLines s).
Proof.
  induction s as [|c s IH]; simpl.
  - constructor; auto.
  - destruct (Ascii.eqb c LF) eqn:E.
    + constructor; auto.
    + destruct (_ && _); [assumption|].
      destruct (splitLines s) as [|l ls]; constructor.
      * simpl. intros [-> | []]. now rewrite Ascii.eqb_refl in E.
      * constructor.
      * inversion_clear IH as [|? ? Hl Hls]. intros [-> | Hin]; auto.
        now rewrite Ascii.eqb_refl in E.
      * now inversion IH.
Qed.

(** Nothing that [stripQuotes] returns holds a double quote. *)
Lemma stripQuotes_clean (s : jsstring) : ~ In dquote (stripQuotes s).
Proof.
  unfold stripQuotes. rewrite filter_In. intros [_ H].
  now rewrite Ascii.eqb_refl in H.
Qed.

End SplitFacts.

(* ================================================================= *)
(** ** The CSV reader *)

Module CsvFacts.

Lemma keepRow_firstFieldNonEmpty (row : list jsstring) :
  keepRow row = firstFieldNonEmpty row.
Proof.
  destruct row as [|[|c f] fs]; reflexivity.
Qed.

Lemma firstFieldNonEmpty_nth (row : list jsstring) :
  firstFieldNonEmpty row = true <-> nth 0 row [] <> [].
Proof.
  destruct row as [|[|c f] fs]; simpl; split; congruence.
Qed.

(** A row is never without parts, so the test on [parts.length] never
    decides. *)
Lemma rowsOfLines_parts (csvOutput : jsstring) :
  Forall (fun row => 0 < length row) (rowsOfLines csvOutput).
Proof.
  unfold rowsOfLines. apply Forall_map, Forall_forall. intros line _.
  pose proof (SplitFacts.splitComma_nonempty (stripQuotes line)).
  destruct (splitComma (stripQuotes line)); [contradiction | simpl; lia].
Qed.

Lemma filter_Subsequence {A : Type} (f : A -> bool) (l : list A) :
  Subsequence (filter f l) l.
Proof.
  induction l as [|x l IH]; simpl.
  - constructor.
  - destruct (f x); now constructor.
Qed.

(** The input whose second line has a first field of one space. *)
Example blank_field_kept :
  parseWindowsCSV (str "a" ++ [LF] ++ str " ,b")
  = [[str "a"]; [str " "; str "b"]].
Proof. reflexivity. Qed.

(** C2, as stated, fails: on the two lines [a] and [ ,b] the second row
    is returned although its first field, a single space, is empty after
    trimming. *)
Lemma blank_first_field_not_dropped :
  ~ dropsBlankFirstFields (str "a" ++ [LF] ++ str " ,b").
Proof.
  intros H.
  apply (H [str " "; str "b"]).
  - right. left. reflexivity.
  - reflexivity.
Qed.

(** C2, amended.  The text is trimmed as a whole and cut into lines, and
    each line gives a row by removing its quotes and splitting at the
    commas.  [parseWindowsCSV] returns exactly the rows whose first field
    has at least one character (the field itself is not trimmed), each as
    often as it occurs and in the order of their lines; the other rows
    are left out. *)
Theorem parseWindowsCSV_rows (csvOutput : jsstring) :
  parseWindowsCSV csvOutput
  = filter firstFieldNonEmpty (rowsOfLines csvOutput)
  /\ Subsequence (parseWindowsCSV csvOutput) (rowsOfLines csvOutput)
  /\ (forall row,
        In row (parseWindowsCSV csvOutput)
        <-> In row (rowsOfLines csvOutput) /\ nth 0 row [] <> []).
Proof.
  assert (E : parseWindowsCSV csvOutput
              = filter firstFieldNonEmpty (rowsOfLines csvOutput)).
  { unfold parseWindowsCSV, rowsOfLines.
    apply filter_ext. exact keepRow_firstFieldNonEmpty. }
  split; [exact E|]. rewrite E. split.
  - apply filter_Subsequence.
  - intros row. rewrite filter_In, firstFieldNonEmpty_nth. reflexivity.
Qed.

End CsvFacts.

(* ================================================================= *)
(** ** Replacing the first occurrence *)

Module ReplaceFacts.

Lemma isPrefix_app (p s : jsstring) :
  isPrefix p s = true <-> exists post, s = p ++ post.
Proof.
  revert s. induction p as [|a p IH]; intros s; simpl.
  - split; [exists s; reflexivity | reflexivity].
  - destruct s as [|b s].
    + split; [discriminate | intros [post H]; discriminate].
    + rewrite andb_true_iff, Ascii.eqb_eq, IH. split.
      * intros [-> [post ->]]. now exists post.
      * intros [post H]. injection H as -> ->. split; [reflexivity|].
        now exists post.
Qed.

Lemma indexOfFrom_eq (p s : jsstring) (k : nat) :
  indexOfFrom p s k
  = if isPrefix p s then Some k
    else match s with
         | [] => None
         | _ :: s' => indexOfFrom p s' (S k)
         end.
Proof. destruct s; reflexivity. Qed.

Lemma indexOfFrom_None (p s : jsstring) :
  forall k, indexOfFrom p s k = None -> NoOccurrence p s.
Proof.
  induction s as [|a s IH]; intros k H; rewrite indexOfFrom_eq in H;
    destruct (isPrefix p _) eqn:E; try discriminate;
    intros pre post Hs.
  - destruct pre; [|discriminate]. simpl in Hs.
    assert (isPrefix p [] = true) by (apply isPrefix_app; now exists post).
    congruence.
  - destruct pre as [|b pre]; simpl in Hs.
    + assert (isPrefix p (a :: s) = true)
        by (apply isPrefix_app; now exists post).
      congruence.
    + injection Hs as _ Hs. exact (IH _ H pre post Hs).
Qed.

Lemma indexOfFrom_Some (p s : jsstring) :
  forall k n,
    indexOfFrom p s k = Some n ->
    exists pre post,
      n = k + length pre /\ s = pre ++ p ++ post /\ FirstOccurrence p pre post.
Proof.
  induction s as [|a s IH]; intros k n H; rewrite indexOfFrom_eq in H;
    destruct (isPrefix p _) eqn:E; try discriminate.
  - apply isPrefix_app in E as [post E]. injection H as <-.
    exists [], post. simpl. repeat split; auto with arith.
    intros pre' post' _. apply Nat.le_0_l.
  - apply isPrefix_app in E as [post E]. injection H as <-.
    exists [], post. simpl. repeat split; auto with arith.
    intros pre' post' _. apply Nat.le_0_l.
  - destruct (IH _ _ H) as (pre & post & -> & -> & Hfirst).
    exists (a :: pre), post. simpl. repeat split; [lia|].
    intros pre' post' Hs. destruct pre' as [|b pre']; simpl in Hs.
    + assert (isPrefix p (a :: pre ++ p ++ post) = true)
        by (apply isPrefix_app; now exists post').
      congruence.
    + injection Hs as _ Hs. simpl. apply le_n_S. exact (Hfirst _ _ Hs).
Qed.

Lemma app_same_length {A : Type} (l1 l2 r1 r2 : list A) :
  l1 ++ r1 = l2 ++ r2 -> length l1 = length l2 -> l1 = l2 /\ r1 = r2.
Proof.
  revert l2. induction l1 as [|x l1 IH]; intros [|y l2] H L;
    try discriminate; simpl in *.
  - auto.
  - injection H as -> H. injection L as L.
    destruct (IH _ H L) as [-> ->]. auto.
Qed.

Lemma replace_absent (s p v : jsstring) :
  NoOccurrence p s -> replace s p v = s.
Proof.
  intros H. unfold replace, indexOf.
  destruct (indexOfFrom p s 0) as [n|] eqn:E; [|reflexivity].
  destruct (indexOfFrom_Some _ _ _ _ E) as (pre & post & _ & Hs & _).
  now destruct (H pre post).
Qed.

Lemma replace_first (p v pre post : jsstring) :
  FirstOccurrence p pre post ->
  replace (pre ++ p ++ post) p v
  = pre ++ getSubstitution p pre post v ++ post.
Proof.
  intros H. unfold replace, indexOf.
  destruct (indexOfFrom p (pre ++ p ++ post) 0) as [n|] eqn:E.
  - destruct (indexOfFrom_Some _ _ _ _ E) as (pre' & post' & -> & Hs & H').
    assert (L : length pre = length pre')
      by (apply Nat.le_antisymm; [exact (H _ _ Hs) | exact (H' _ _ (eq_sym Hs))]).
    destruct (app_same_length _ _ _ _ Hs L) as [<- Hp].
    apply app_inv_head in Hp. subst post'. simpl.
    rewrite firstn_app, firstn_all, Nat.sub_diag, firstn_O, app_nil_r.
    rewrite skipn_app, (skipn_all2 pre) by lia. simpl.
    replace (length pre + length p - length pre) with (length p) by lia.
    rewrite skipn_app, skipn_all, Nat.sub_diag. reflexivity.
  - now destruct (indexOfFrom_None _ _ _ E pre post).
Qed.

Lemma occurrence_or_not (p s : jsstring) :
  NoOccurrence p s
  \/ exists pre post, s = pre ++ p ++ post /\ FirstOccurrence p pre post.
Proof.
  destruct (indexOfFrom p s 0) as [n|] eqn:E.
  - right. destruct (indexOfFrom_Some _ _ _ _ E) as (pre & post & _ & Hs & H).
    now exists pre, post.
  - left. exact (indexOfFrom_None _ _ _ E).
Qed.

Lemma getSubstitution_literal (matched before after v : jsstring) :
  ~ In dollar v -> getSubstitution matched before after v = v.
Proof.
  induction v as [|c v IH]; intros H; simpl; [reflexivity|].
  destruct (Ascii.eqb c dollar) eqn:E.
  - apply Ascii.eqb_eq in E. subst c. destruct H. now left.
  - rewrite IH; [reflexivity|]. intros Hin. apply H. now right.
Qed.

End ReplaceFacts.

(* ================================================================= *)
(** ** The command-template parser *)

Module TemplateFacts.

Import ReplaceFacts.

Lemma processArg_step (p v : jsstring) (more : list (jsstring * jsstring))
    (s : jsstring) :
  fold_left
    (fun processedArg entry => replace processedArg (fst entry) (snd entry))
    ((p, v) :: more) s
  = fold_left
      (fun processedArg entry => replace processedArg (fst entry) (snd entry))
      more (replace s p v).
Proof. reflexivity. Qed.

Lemma fold_Substituted (replacements : list (jsstring * jsstring)) :
  forall s,
    Substituted replacements s
      (fold_left
         (fun processedArg entry =>
            replace processedArg (fst entry) (snd entry))
         replacements s).
Proof.
  induction replacements as [|[p v] more IH]; intros s.
  - constructor.
  - rewrite processArg_step.
    destruct (occurrence_or_not p s) as [H | (pre & post & -> & H)].
    + rewrite (replace_absent _ _ _ H). apply subst_absent; auto.
    + rewrite (replace_first _ _ _ _ H). apply subst_first; auto.
Qed.

Example twice_parsed :
  parseCustomCommand twice [(str "%s", str "v")]
  = Returned {| executable := str "x"; args := [str "v %s"] |}.
Proof. reflexivity. Qed.

(** Entries are applied one after the other to the running text, so a
    later entry also replaces in what an earlier one put in. *)
Example later_entry_rescans :
  parseCustomCommand (quoted (str "x") ++ str " " ++ quoted (str "%a"))
    [(str "%a", str "%b"); (str "%b", str "v")]
  = Returned {| executable := str "x"; args := [str "v"] |}.
Proof. reflexivity. Qed.

(** C3, as stated, fails: with the placeholder [%s] bound to [v], the
    argument token [%s %s] becomes [v %s]; the second occurrence of the
    placeholder is still there. *)
Lemma second_occurrence_left :
  ~ noPlaceholderLeft twice [(str "%s", str "v")].
Proof.
  intros H.
  specialize (H {| executable := str "x"; args := [str "v %s"] |}
                (str "v %s") (str "%s") (str "v")
                eq_refl (or_introl eq_refl) (or_introl eq_refl)).
  discriminate H.
Qed.

(** C4. On the template [notepad.exe], a space, and [%s] in double
    quotes, with [%s] bound to [C:/a b.txt], the only match of the
    pattern is the quoted span: the unquoted word is no token, because
    the pattern's second alternative asks for a backslash followed by
    capital S.  So the executable is [%s] and there is no argument. *)
Theorem notepad_template :
  parseCustomCommand (str "notepad.exe " ++ quoted (str "%s"))
    [(str "%s", str "C:/a b.txt")]
  = Returned {| executable := str "%s"; args := [] |}.
Proof. reflexivity. Qed.

Lemma matchAllFrom_plain (s : jsstring) :
  forall skip,
    ~ In dquote s -> ~ In backslash s -> matchAllFrom skip s = [].
Proof.
  induction s as [|c s IH]; intros skip Hq Hb; simpl; [reflexivity|].
  assert (Eq : Ascii.eqb c dquote = false)
    by (apply Ascii.eqb_neq; intros ->; apply Hq; now left).
  assert (Eb : Ascii.eqb c backslash = false)
    by (apply Ascii.eqb_neq; intros ->; apply Hb; now left).
  assert (Hq' : ~ In dquote s) by (intros H; apply Hq; now right).
  assert (Hb' : ~ In backslash s) by (intros H; apply Hb; now right).
  destruct skip; [|now apply IH].
  unfold matchAt, matchQuoted, matchBackslashS. rewrite Eq, Eb.
  now apply IH.
Qed.

(** A command line without any double quote or backslash, however many
    words it has, has no token and is refused. *)
Lemma unquoted_command_refused (command : jsstring)
    (replacements : list (jsstring * jsstring)) :
  ~ In dquote command -> ~ In backslash command ->
  parseCustomCommand command replacements = Threw invalidCommandFormat.
Proof.
  intros Hq Hb. unfold parseCustomCommand, matchAll.
  now rewrite matchAllFrom_plain.
Qed.

(** C8. The template of the two words [notepad.exe] and [file.txt] is
    refused with the error [Invalid command format], whatever the
    replacements: the pattern as the source writes it has no match in
    it, although the template is two runs of characters that are not
    white space. *)
Theorem two_words_refused (replacements : list (jsstring * jsstring)) :
  parseCustomCommand (str "notepad.exe file.txt") replacements
  = Threw invalidCommandFormat
  /\ matchAll (str "notepad.exe file.txt") = [].
Proof. split; reflexivity. Qed.

End TemplateFacts.

(* ================================================================= *)
(** ** The executor, the process list and the availability probe *)

Module ExecFacts.

Section Facts.

Variable World : Type.
Variable execAsync : jsstring -> M World ExecOutput.

Lemma executeWindowsCommand_cases (command : jsstring) (w : World) :
  match execAsync (fullCommand command) w with
  | (w', Returned out) =>
      executeWindowsCommand execAsync command w
      = (w', Returned (trim (stdout out)))
  | (w', Threw error) =>
      executeWindowsCommand execAsync command w
      = (w', Threw (if isENOENT error then commandNotFound else error))
  end.
Proof.
  unfold executeWindowsCommand, tryCatch, bind, ret, throw.
  destruct (execAsync (fullCommand command) w) as [w' [out|error]].
  - reflexivity.
  - now destruct (isENOENT error).
Qed.

(** C6, amended.  When the launch fails with an [Error] whose [code] is
    ENOENT, [executeWindowsCommand] throws a new error with the message
    that the command was not found; every other failure, a refusal of
    access included, is thrown again as it came.  When the launch
    succeeds the trimmed standard output is returned. *)
Theorem executeWindowsCommand_failures (command : jsstring) (w : World) :
  match execAsync (fullCommand command) w with
  | (w', Threw error) =>
      (isENOENT error = true ->
       executeWindowsCommand execAsync command w
       = (w', Threw commandNotFound))
      /\ (isENOENT error = false ->
          executeWindowsCommand execAsync command w = (w', Threw error))
  | (w', Returned out) =>
      executeWindowsCommand execAsync command w
      = (w', Returned (trim (stdout out)))
  end.
Proof.
  pose proof (executeWindowsCommand_cases command w) as H.
  destruct (execAsync (fullCommand command) w) as [w' [out|error]].
  - exact H.
  - split; intros E; now rewrite E in H.
Qed.

(** C5. When the listing command prints the one row [tasklistRow], the
    quotes are removed before the row is split at its commas, so the
    fifth field is cut in two: the record's [memoryUsage] is [15], and
    the rest of the field, [000 K], is a sixth part that no field of the
    record reads. *)
Theorem getProcessList_row (w w' : World) (err : jsstring) :
  execAsync (fullCommand (str "tasklist /nh /fo csv")) w
  = (w', Returned {| stdout := tasklistRow; stderr := err |}) ->
  getProcessList execAsync w
  = (w', Returned [ {| name := str "notepad.exe";
                       pid := str "1234";
                       sessionName := str "Console";
                       sessionNumber := str "1";
                       memoryUsage := str "15" |} ]).
Proof.
  intros H. unfold getProcessList, bind.
  pose proof (executeWindowsCommand_cases (str "tasklist /nh /fo csv") w)
    as E.
  rewrite H in E. rewrite E. reflexivity.
Qed.

(** C10. [isToolAvailable] always returns, and returns a boolean: [true]
    when the probe command [where toolName] is launched and succeeds,
    [false] when the launch fails in any way; nothing is thrown to the
    caller. *)
Theorem isToolAvailable_total (toolName : jsstring) (w : World) :
  (exists available w',
     isToolAvailable execAsync toolName w = (w', Returned available))
  /\ match execAsync (fullCommand (str "where " ++ toolName)) w with
     | (w', Returned _) =>
         isToolAvailable execAsync toolName w = (w', Returned true)
     | (w', Threw _) =>
         isToolAvailable execAsync toolName w = (w', Returned false)
     end.
Proof.
  assert (H : match execAsync (fullCommand (str "where " ++ toolName)) w with
              | (w', Returned _) =>
                  isToolAvailable execAsync toolName w = (w', Returned true)
              | (w', Threw _) =>
                  isToolAvailable execAsync toolName w = (w', Returned false)
              end).
  { unfold isToolAvailable, tryCatch, bind.
    pose proof (executeWindowsCommand_cases (str "where " ++ toolName) w)
      as E.
    destruct (execAsync (fullCommand (str "where " ++ toolName)) w)
      as [w' [out|error]]; now rewrite E. }
  split; [|exact H].
  destruct (execAsync (fullCommand (str "where " ++ toolName)) w)
    as [w' [out|error]]; eauto.
Qed.

End Facts.

Lemma getProcessList_row_witness :
  printingRow (fullCommand (str "tasklist /nh /fo csv")) tt
  = (tt, Returned {| stdout := tasklistRow; stderr := [] |})
  /\ getProcessList printingRow tt
     = (tt, Returned [ {| name := str "notepad.exe";
                          pid := str "1234";
                          sessionName := str "Console";
                          sessionNumber := str "1";
                          memoryUsage := str "15" |} ]).
Proof.
  split.
  - reflexivity.
  - apply (getProcessList_row unit printingRow tt tt []). reflexivity.
Defined.

Example refusal_rethrown :
  executeWindowsCommand refusing (str "tool") tt = (tt, Threw accessDenied).
Proof. reflexivity. Qed.

(** C6, as stated, fails: a refusal of access (an error with the code
    EACCES) leaves [executeWindowsCommand] as the very error that came
    in; it is not turned into anything else. *)
Lemma permission_failure_not_classified :
  ~ launchFailuresClassified.
Proof.
  intros H.
  apply (H unit refusing (str "tool") tt tt accessDenied); reflexivity.
Qed.

End ExecFacts.
(* ================================================================= *)
(** ** Trimming *)

Module TrimFacts.

Lemma dropWhile_all {A : Type} (f : A -> bool) (a b : list A) :
  Forall (fun x => f x = true) a -> dropWhile f (a ++ b) = dropWhile f b.
Proof.
  induction 1 as [|x a Hx _ IH]; simpl; [reflexivity|]. now rewrite Hx.
Qed.

Lemma dropWhile_some {A : Type} (f : A -> bool) (a b : list A) :
  dropWhile f a <> [] -> dropWhile f (a ++ b) = dropWhile f a ++ b.
Proof.
  induction a as [|x a IH]; simpl; intros H; [contradiction|].
  destruct (f x); [now apply IH | reflexivity].
Qed.

Lemma dropWhile_nil {A : Type} (f : A -> bool) (a : list A) :
  dropWhile f a = [] <-> Forall (fun x => f x = true) a.
Proof.
  induction a as [|x a IH]; simpl.
  - split; [constructor | reflexivity].
  - destruct (f x) eqn:E.
    + rewrite IH. split; [now constructor | now inversion 1].
    + split; [discriminate | inversion 1; congruence].
Qed.

Lemma dropWhile_head {A : Type} (f : A -> bool) (a : list A) :
  match dropWhile f a with
  | [] => True
  | x :: _ => f x = false
  end.
Proof.
  induction a as [|x a IH]; simpl; [exact I|].
  destruct (f x) eqn:E; [exact IH | exact E].
Qed.

(** [trimEnd], read from the left. *)
Lemma trimEnd_cons (c : ascii) (s : jsstring) :
  trimEnd (c :: s)
  = match trimEnd s with
    | [] => if isWhiteSpace c then [] else [c]
    | r => c :: r
    end.
Proof.
  unfold trimEnd. simpl rev.
  destruct (dropWhile isWhiteSpace (rev s)) as [|x r] eqn:E.
  - apply dropWhile_nil in E. rewrite (dropWhile_all _ _ _ E). simpl.
    now destruct (isWhiteSpace c).
  - rewrite dropWhile_some by congruence. rewrite E, rev_app_distr. simpl.
    destruct (rev r ++ [x]) eqn:E'; [|reflexivity].
    now destruct (rev r).
Qed.

Lemma trimEnd_nil (s : jsstring) : trimEnd s = [] <-> Blank s.
Proof.
  unfold trimEnd, Blank. split.
  - intros H. apply (f_equal (@rev ascii)) in H. rewrite rev_involutive in H.
    simpl in H. apply dropWhile_nil in H. apply Forall_rev in H.
    now rewrite rev_involutive in H.
  - intros H. apply Forall_rev in H. apply dropWhile_nil in H. now rewrite H.
Qed.

Lemma trimEnd_head (s : jsstring) :
  trimEnd s <> [] -> hd CR (trimEnd s) = hd CR s.
Proof.
  destruct s as [|c s]; [reflexivity|]. rewrite trimEnd_cons.
  destruct (trimEnd s); [|reflexivity].
  now destruct (isWhiteSpace c).
Qed.

Lemma trimEnd_blank_tail (s ws : jsstring) :
  Blank ws -> trimEnd (s ++ ws) = trimEnd s.
Proof.
  intros H. unfold trimEnd. rewrite rev_app_distr.
  rewrite dropWhile_all; [reflexivity|]. now apply Forall_rev.
Qed.

(** White space around a text does not reach its trimmed form. *)
Lemma trim_surrounded (ws1 s ws2 : jsstring) :
  Blank ws1 -> Blank ws2 -> trim (ws1 ++ s ++ ws2) = trim s.
Proof.
  intros H1 H2. unfold trim, trimStart. rewrite (dropWhile_all _ _ _ H1).
  destruct (dropWhile isWhiteSpace s) as [|x r] eqn:E.
  - apply dropWhile_nil in E. rewrite (dropWhile_all _ _ _ E).
    apply dropWhile_nil in H2. now rewrite H2.
  - rewrite dropWhile_some by congruence. rewrite E.
    now apply trimEnd_blank_tail.
Qed.

Lemma trim_blank (ws : jsstring) : Blank ws -> trim ws = [].
Proof.
  intros H. unfold trim, trimStart. apply dropWhile_nil in H. now rewrite H.
Qed.

(** A trimmed text has no white space at its head. *)
Lemma trim_head (s : jsstring) :
  match trim s with
  | [] => True
  | c :: _ => isWhiteSpace c = false
  end.
Proof.
  unfold trim.
  pose proof (dropWhile_head isWhiteSpace s) as H. fold (trimStart s) in H.
  destruct (trimStart s) as [|x t]; [exact I|].
  pose proof (trimEnd_head (x :: t)) as E.
  destruct (trimEnd (x :: t)) as [|c r]; [exact I|].
  specialize (E ltac:(discriminate)). simpl in E. now subst c.
Qed.

(** A trimmed text has no white space at its end. *)
Lemma trim_last (s : jsstring) :
  match rev (trim s) with
  | [] => True
  | c :: _ => isWhiteSpace c = false
  end.
Proof.
  unfold trim, trimEnd. rewrite rev_involutive. apply dropWhile_head.
Qed.

Lemma trim_idempotent (s : jsstring) : trim (trim s) = trim s.
Proof.
  pose proof (trim_head s) as Hh. pose proof (trim_last s) as Hl.
  destruct (trim s) as [|c r] eqn:E; [reflexivity|].
  unfold trim at 1, trimStart. simpl. rewrite Hh.
  unfold trimEnd. destruct (rev (c :: r)) as [|x t] eqn:E'.
  - apply (f_equal (@rev ascii)) in E'. rewrite rev_involutive in E'.
    discriminate E'.
  - simpl. rewrite Hl. rewrite <- E'. apply rev_involutive.
Qed.

End TrimFacts.

(* ================================================================= *)
(** ** More on the CSV reader and the process list *)

Module CsvMore.

Import TrimFacts SplitFacts.

Lemma parseWindowsCSV_empty : parseWindowsCSV [] = [].
Proof. reflexivity. Qed.

Lemma parseWindowsCSV_trim (s t : jsstring) :
  trim s = trim t -> parseWindowsCSV s = parseWindowsCSV t.
Proof. unfold parseWindowsCSV. now intros ->. Qed.

(** X1. White space before and after the text does not change the rows, and
    a text of white space only has no rows. *)
Theorem parseWindowsCSV_white_space (ws1 s ws2 : jsstring) :
  Blank ws1 -> Blank ws2 ->
  parseWindowsCSV (ws1 ++ s ++ ws2) = parseWindowsCSV s
  /\ parseWindowsCSV ws1 = [].
Proof.
  intros H1 H2. split.
  - apply parseWindowsCSV_trim. now apply trim_surrounded.
  - rewrite (parseWindowsCSV_trim ws1 []); [reflexivity|].
    now rewrite trim_blank.
Qed.

Lemma parseWindowsCSV_white_space_witness :
  Blank [LF; " "%char] /\ Blank [CR; LF]
  /\ parseWindowsCSV ([LF; " "%char] ++ str "a,b" ++ [CR; LF])
     = parseWindowsCSV (str "a,b")
  /\ parseWindowsCSV [LF; " "%char] = [].
Proof.
  assert (H1 : Blank [LF; " "%char]) by (repeat constructor).
  assert (H2 : Blank [CR; LF]) by (repeat constructor).
  split; [exact H1|]. split; [exact H2|].
  exact (parseWindowsCSV_white_space _ (str "a,b") _ H1 H2).
Defined.

Lemma dropWhile_filter {A : Type} (f keep : A -> bool) (l : list A) :
  (forall x, keep x = false -> f x = true) ->
  dropWhile f (filter keep l) = filter keep (dropWhile f l).
Proof.
  intros H. induction l as [|x l IH]; simpl; [reflexivity|].
  destruct (keep x) eqn:K; simpl.
  - destruct (f x); [exact IH | simpl; now rewrite K].
  - now rewrite (H x K).
Qed.

Lemma rev_filter {A : Type} (keep : A -> bool) (l : list A) :
  rev (filter keep l) = filter keep (rev l).
Proof.
  induction l as [|x l IH]; simpl; [reflexivity|].
  rewrite filter_app. simpl. destruct (keep x); simpl.
  - now rewrite IH.
  - now rewrite IH, app_nil_r.
Qed.

Lemma CR_is_white_space (c : ascii) :
  negb (Ascii.eqb c CR) = false -> isWhiteSpace c = true.
Proof.
  intros H. apply negb_false_iff, Ascii.eqb_eq in H. now subst c.
Qed.

Lemma trim_withoutCR (s : jsstring) :
  trim (withoutCR s) = withoutCR (trim s).
Proof.
  unfold trim, trimStart, trimEnd, withoutCR.
  rewrite (dropWhile_filter _ _ _ CR_is_white_space).
  rewrite rev_filter, (dropWhile_filter _ _ _ CR_is_white_space).
  now rewrite rev_filter.
Qed.

Lemma crOnlyBeforeLF_cons (c : ascii) (s : jsstring) :
  crOnlyBeforeLF (c :: s) = true <->
  (c = CR -> hd CR s = LF /\ s <> []) /\ crOnlyBeforeLF s = true.
Proof.
  simpl. rewrite andb_true_iff. destruct (Ascii.eqb c CR) eqn:E.
  - apply Ascii.eqb_eq in E. subst c. destruct s as [|d s]; simpl.
    + split; [intros [? _]; discriminate | intros [H _]].
      now destruct (H eq_refl).
    + rewrite Ascii.eqb_eq. split.
      * intros [-> H]. split; [split; [reflexivity | discriminate] | exact H].
      * intros [H1 H2]. split; [now destruct (H1 eq_refl) | exact H2].
  - apply Ascii.eqb_neq in E. split.
    + intros [_ H]. split; [contradiction | exact H].
    + intros [_ H]. now split.
Qed.

Lemma crOnlyBeforeLF_trimStart (s : jsstring) :
  crOnlyBeforeLF s = true -> crOnlyBeforeLF (trimStart s) = true.
Proof.
  unfold trimStart. induction s as [|c s IH]; intros H; [exact H|].
  simpl dropWhile. destruct (isWhiteSpace c); [|exact H].
  apply IH. now apply crOnlyBeforeLF_cons in H.
Qed.

Lemma crOnlyBeforeLF_trimEnd (s : jsstring) :
  crOnlyBeforeLF s = true -> crOnlyBeforeLF (trimEnd s) = true.
Proof.
  induction s as [|c s IH]; intros H; [reflexivity|].
  apply crOnlyBeforeLF_cons in H as [Hc Hs]. specialize (IH Hs).
  rewrite trimEnd_cons. pose proof (trimEnd_head s) as Hh.
  destruct (trimEnd s) as [|x r] eqn:E.
  - destruct (isWhiteSpace c) eqn:W; [reflexivity|].
    apply crOnlyBeforeLF_cons. split; [|reflexivity].
    intros ->. discriminate W.
  - apply crOnlyBeforeLF_cons. split; [|exact IH].
    intros Hcr. destruct (Hc Hcr) as [Hd _]. split; [|discriminate].
    now rewrite Hh by discriminate.
Qed.

Lemma splitLines_withoutCR (s : jsstring) :
  crOnlyBeforeLF s = true -> splitLines (withoutCR s) = splitLines s.
Proof.
  unfold withoutCR. induction s as [|c s IH]; intros H; [reflexivity|].
  apply crOnlyBeforeLF_cons in H as [Hc Hs]. specialize (IH Hs).
  simpl filter. destruct (Ascii.eqb c CR) eqn:E; simpl negb; cbv iota.
  - apply Ascii.eqb_eq in E. subst c. destruct (Hc eq_refl) as [Hd Hn].
    destruct s as [|d s]; [contradiction|]. simpl in Hd. subst d.
    rewrite IH. reflexivity.
  - simpl splitLines. rewrite E, IH. reflexivity.
Qed.

(** X2. When carriage returns stand only in CR LF line ends, the rows are
    those of the same text with LF line ends. *)
Theorem parseWindowsCSV_line_ends (s : jsstring) :
  crOnlyBeforeLF s = true ->
  parseWindowsCSV (withoutCR s) = parseWindowsCSV s.
Proof.
  intros H. unfold parseWindowsCSV.
  rewrite trim_withoutCR, splitLines_withoutCR; [reflexivity|].
  unfold trim. now apply crOnlyBeforeLF_trimEnd, crOnlyBeforeLF_trimStart.
Qed.

Lemma parseWindowsCSV_line_ends_witness :
  crOnlyBeforeLF (str "a,b" ++ [CR; LF] ++ str "c,d" ++ [CR; LF]) = true
  /\ parseWindowsCSV (withoutCR (str "a,b" ++ [CR; LF] ++ str "c,d" ++ [CR; LF]))
     = parseWindowsCSV (str "a,b" ++ [CR; LF] ++ str "c,d" ++ [CR; LF]).
Proof.
  split; [reflexivity|].
  apply (parseWindowsCSV_line_ends
           (str "a,b" ++ [CR; LF] ++ str "c,d" ++ [CR; LF])).
  reflexivity.
Defined.

Lemma splitComma_chars (c : ascii) (s f : jsstring) :
  In f (splitComma s) -> In c f -> In c s.
Proof.
  revert f. induction s as [|x s IH]; simpl; intros f Hf Hc.
  - destruct Hf as [<- | []]. contradiction.
  - destruct (Ascii.eqb x comma).
    + destruct Hf as [<- | Hf]; [contradiction | right; eauto].
    + destruct (splitComma s) as [|g gs].
      * destruct Hf as [<- | []]. destruct Hc as [-> | []]. now left.
      * destruct Hf as [<- | Hf].
        -- destruct Hc as [-> | Hc]; [now left | right].
           apply (IH g); [now left | exact Hc].
        -- right. apply (IH f); [now right | exact Hc].
Qed.

Lemma stripQuotes_chars (c : ascii) (s : jsstring) :
  In c (stripQuotes s) -> In c s.
Proof. unfold stripQuotes. rewrite filter_In. tauto. Qed.

(** No field of a row holds a double quote, a comma or a line feed. *)
Lemma rowsOfLines_plain (csvOutput : jsstring) (row : list jsstring) :
  In row (rowsOfLines csvOutput) -> Forall Plain row.
Proof.
  unfold rowsOfLines. rewrite in_map_iff. intros (line & <- & Hline).
  apply Forall_forall. intros f Hf.
  pose proof (splitLines_lines (trim csvOutput)) as HL.
  rewrite Forall_forall in HL. specialize (HL line Hline).
  pose proof (splitComma_fields (stripQuotes line)) as HC.
  rewrite Forall_forall in HC. specialize (HC f Hf).
  repeat split.
  - intros H. apply (stripQuotes_clean line).
    exact (splitComma_chars _ _ _ Hf H).
  - exact HC.
  - intros H. apply HL, stripQuotes_chars.
    exact (splitComma_chars _ _ _ Hf H).
Qed.

Lemma field_plain (row : list jsstring) (i : nat) :
  Forall Plain row -> Plain (field row i).
Proof.
  intros H. unfold field.
  destruct (nth_in_or_default i row []) as [Hin | ->].
  - rewrite Forall_forall in H. now apply H.
  - repeat split; intros [].
Qed.

(** X3. Every record that [getProcessList] returns has a name of at least
    one character, and none of its five fields holds a double quote, a
    comma or a line feed. *)
Theorem getProcessList_records (World : Type)
    (execAsync : jsstring -> M World ExecOutput) (w w' : World)
    (records : list ProcessRecord) :
  getProcessList execAsync w = (w', Returned records) ->
  Forall
    (fun r =>
       name r <> []
       /\ Plain (name r) /\ Plain (pid r) /\ Plain (sessionName r)
       /\ Plain (sessionNumber r) /\ Plain (memoryUsage r))
    records.
Proof.
  unfold getProcessList, bind, ret.
  destruct (executeWindowsCommand execAsync _ w) as [w1 [output|t]];
    [|discriminate].
  intros H. injection H as _ <-.
  apply Forall_map, Forall_forall. intros row Hrow.
  unfold parseWindowsCSV in Hrow. apply filter_In in Hrow as [Hrow Hkeep].
  rewrite CsvFacts.keepRow_firstFieldNonEmpty in Hkeep.
  apply CsvFacts.firstFieldNonEmpty_nth in Hkeep.
  pose proof (rowsOfLines_plain output row Hrow) as Hp.
  unfold toProcessRecord. simpl.
  split; [exact Hkeep|].
  split; [now apply field_plain|]. split; [now apply field_plain|].
  split; [now apply field_plain|]. split; now apply field_plain.
Qed.

Lemma getProcessList_records_witness :
  getProcessList printingRow tt
  = (tt, Returned (map toProcessRecord (parseWindowsCSV tasklistRow)))
  /\ Forall
       (fun r =>
          name r <> []
          /\ Plain (name r) /\ Plain (pid r) /\ Plain (sessionName r)
          /\ Plain (sessionNumber r) /\ Plain (memoryUsage r))
       (map toProcessRecord (parseWindowsCSV tasklistRow)).
Proof.
  split; [reflexivity|].
  apply (getProcessList_records unit printingRow tt tt). reflexivity.
Defined.

End CsvMore.

(* ================================================================= *)
(** ** More on the command-template parser *)

Module TemplateMore.

Lemma takeWhile_true {A : Type} (f : A -> bool) (l : list A) :
  Forall (fun x => f x = true) (takeWhile f l).
Proof.
  induction l as [|x l IH]; simpl; [constructor|].
  destruct (f x) eqn:E; now constructor.
Qed.

Lemma takeWhile_stop {A : Type} (f : A -> bool) (t : list A) (d : A)
    (rest : list A) :
  Forall (fun x => f x = true) t -> f d = false ->
  takeWhile f (t ++ d :: rest) = t.
Proof.
  intros Ht Hd. induction Ht as [|x t Hx _ IH]; simpl.
  - now rewrite Hd.
  - now rewrite Hx, IH.
Qed.

Lemma not_quote (t : jsstring) :
  ~ In dquote t <->
  Forall (fun d => negb (Ascii.eqb d dquote) = true) t.
Proof.
  rewrite Forall_forall. split.
  - intros H d Hd. apply negb_true_iff, Ascii.eqb_neq. now intros ->.
  - intros H Hin. specialize (H _ Hin). now rewrite Ascii.eqb_refl in H.
Qed.

Lemma stripQuotes_same (t : jsstring) :
  ~ In dquote t -> stripQuotes t = t.
Proof.
  intros H. apply not_quote in H. unfold stripQuotes.
  induction H as [|x t Hx _ IH]; simpl; [reflexivity|]. now rewrite Hx, IH.
Qed.

Lemma stripQuotes_quoted (t : jsstring) :
  ~ In dquote t -> stripQuotes (quoted t) = t.
Proof.
  intros H. unfold quoted, stripQuotes. simpl.
  rewrite filter_app. simpl. fold (stripQuotes t).
  now rewrite (stripQuotes_same t H), app_nil_r.
Qed.

Lemma matchQuoted_shape (s tok : jsstring) :
  matchQuoted s = Some tok -> exists t, tok = quoted t /\ Quotable t.
Proof.
  unfold matchQuoted. destruct s as [|c r]; [discriminate|].
  destruct (Ascii.eqb c dquote) eqn:Ec; [|discriminate].
  apply Ascii.eqb_eq in Ec. subst c.
  pose proof (takeWhile_true (fun d => negb (Ascii.eqb d dquote)) r) as Hrun.
  cbv zeta.
  destruct (takeWhile _ r) as [|x run]; [discriminate|].
  match goal with
  | |- context [skipn ?n r] => destruct (skipn n r) as [|d r']
  end; [discriminate|].
  destruct (Ascii.eqb d dquote) eqn:Ed; [|discriminate].
  apply Ascii.eqb_eq in Ed. subst d. intros H. injection H as <-.
  exists (x :: run). split; [reflexivity|]. split; [discriminate|].
  now apply not_quote.
Qed.

Lemma matchAt_stripped (s tok : jsstring) :
  matchAt s = Some tok -> stripQuotes tok <> [].
Proof.
  unfold matchAt. destruct (matchQuoted s) as [tok'|] eqn:E.
  - intros H. injection H as ->.
    destruct (matchQuoted_shape _ _ E) as (t & -> & Ht & Hq).
    now rewrite stripQuotes_quoted.
  - unfold matchBackslashS. destruct s as [|c r]; [discriminate|].
    destruct (Ascii.eqb c backslash) eqn:Ec; [|discriminate].
    apply Ascii.eqb_eq in Ec. subst c.
    destruct (takeWhile _ r); [discriminate|].
    intros H. injection H as <-. discriminate.
Qed.

Lemma matchAllFrom_stripped (s : jsstring) :
  forall skip,
    Forall (fun tok => stripQuotes tok <> []) (matchAllFrom skip s).
Proof.
  induction s as [|c s IH]; intros skip; simpl; [constructor|].
  destruct skip; [|apply IH].
  destruct (matchAt (c :: s)) as [tok|] eqn:E; [|apply IH].
  constructor; [exact (matchAt_stripped _ _ E) | apply IH].
Qed.

(** X4. Whatever [parseCustomCommand] returns, the executable has at least
    one character and no double quote in it. *)
Theorem executable_never_empty (command : jsstring)
    (replacements : list (jsstring * jsstring)) (spec : CommandSpec) :
  parseCustomCommand command replacements = Returned spec ->
  executable spec <> [] /\ ~ In dquote (executable spec).
Proof.
  unfold parseCustomCommand, matchAll.
  pose proof (matchAllFrom_stripped command 0) as H.
  destruct (matchAllFrom 0 command) as [|first rest]; [discriminate|].
  intros E. injection E as <-. simpl. split.
  - now inversion H.
  - apply SplitFacts.stripQuotes_clean.
Qed.

Lemma executable_never_empty_witness :
  parseCustomCommand twice [(str "%s", str "v")]
  = Returned {| executable := str "x"; args := [str "v %s"] |}
  /\ str "x" <> [] /\ ~ In dquote (str "x").
Proof.
  split; [reflexivity|].
  apply (executable_never_empty twice [(str "%s", str "v")]
           {| executable := str "x"; args := [str "v %s"] |}).
  reflexivity.
Defined.

Lemma matchAt_quoted (t rest : jsstring) :
  Quotable t -> matchAt (quoted t ++ rest) = Some (quoted t).
Proof.
  intros [Hne Hq]. unfold matchAt.
  assert (E : matchQuoted (quoted t ++ rest) = Some (quoted t));
    [|now rewrite E].
  unfold matchQuoted, quoted.
  change ((dquote :: t ++ [dquote]) ++ rest)
    with (dquote :: (t ++ [dquote]) ++ rest).
  cbv beta iota zeta. rewrite Ascii.eqb_refl. rewrite <- app_assoc.
  change ([dquote] ++ rest) with (dquote :: rest).
  rewrite (takeWhile_stop _ t dquote rest);
    [|now apply not_quote | now rewrite Ascii.eqb_refl].
  destruct t as [|a l]; [contradiction|].
  rewrite skipn_app, skipn_all, Nat.sub_diag.
  change (skipn 0 (dquote :: rest)) with (dquote :: rest).
  change ([] ++ dquote :: rest) with (dquote :: rest).
  cbv beta iota. now rewrite Ascii.eqb_refl.
Qed.

Lemma matchAllFrom_pass (l rest : jsstring) :
  matchAllFrom (length l) (l ++ rest) = matchAllFrom 0 rest.
Proof.
  induction l as [|x l IH]; simpl; [reflexivity | exact IH].
Qed.

Lemma matchAllFrom_quoted (t rest : jsstring) :
  Quotable t ->
  matchAllFrom 0 (quoted t ++ rest) = quoted t :: matchAllFrom 0 rest.
Proof.
  intros H. pose proof (matchAt_quoted t rest H) as E.
  unfold quoted in *. simpl in *. rewrite E. f_equal.
  replace (length (dquote :: t ++ [dquote]) - 1)
    with (length (t ++ [dquote])) by (simpl; lia).
  apply matchAllFrom_pass.
Qed.

Lemma matchAll_render (words : list jsstring) :
  Forall Quotable words -> matchAll (render words) = map quoted words.
Proof.
  unfold matchAll, render.
  induction 1 as [|w ws Hw Hws IH]; [reflexivity|].
  destruct ws as [|w2 ws].
  - change (joinSep (str " ") (map quoted [w])) with (quoted w).
    change (map quoted [w]) with [quoted w].
    rewrite <- (app_nil_r (quoted w)) at 1.
    now rewrite matchAllFrom_quoted.
  - change (joinSep (str " ") (map quoted (w :: w2 :: ws)))
      with (quoted w ++ str " " ++ joinSep (str " ") (map quoted (w2 :: ws))).
    rewrite matchAllFrom_quoted by assumption.
    change (map quoted (w :: w2 :: ws))
      with (quoted w :: map quoted (w2 :: ws)).
    f_equal. exact IH.
Qed.

Lemma parseCustomCommand_render (exe : jsstring) (arguments : list jsstring)
    (replacements : list (jsstring * jsstring)) :
  Quotable exe -> Forall Quotable arguments ->
  parseCustomCommand (render (exe :: arguments)) replacements
  = Returned {| executable := exe;
                args := map (processArg replacements) arguments |}.
Proof.
  intros He Ha. unfold parseCustomCommand.
  rewrite matchAll_render by now constructor.
  change (map quoted (exe :: arguments))
    with (quoted exe :: map quoted arguments).
  cbv beta iota. rewrite stripQuotes_quoted by apply He.
  f_equal. f_equal. rewrite map_map. apply map_ext_in.
  intros a Hin. rewrite Forall_forall in Ha.
  unfold processArg. rewrite stripQuotes_quoted by apply (Ha a Hin).
  rewrite stripQuotes_same by apply (Ha a Hin). reflexivity.
Qed.

Lemma processArg_Substituted (replacements : list (jsstring * jsstring))
    (arguments : list jsstring) :
  Forall Quotable arguments ->
  Forall2 (Substituted replacements) arguments
    (map (processArg replacements) arguments).
Proof.
  induction 1 as [|a arguments [_ Hq] _ IH]; simpl; constructor; auto.
  unfold processArg. rewrite (stripQuotes_same a Hq).
  apply TemplateFacts.fold_Substituted.
Qed.

(** C3, amended.  For a template made of words in double quotes joined
    by single spaces, each word with at least one character and without
    a double quote, and for every list of replacements: parsing
    returns; the executable is the first word, whatever the
    replacements are; and there is one argument per later word, in
    order, obtained from the word by taking the entries in the order of
    [Object.entries]: an entry whose placeholder does not occur in the
    running text changes nothing, and otherwise only the first
    occurrence is replaced, by the expansion of the entry's value, which
    is the value itself when no dollar sign is in it. *)
Theorem quoted_words_first_occurrence (exe : jsstring)
    (arguments : list jsstring) (replacements : list (jsstring * jsstring)) :
  Quotable exe -> Forall Quotable arguments ->
  (exists substituted,
     parseCustomCommand (render (exe :: arguments)) replacements
     = Returned {| executable := exe; args := substituted |}
     /\ Forall2 (Substituted replacements) arguments substituted)
  /\ (forall matched before after value,
        ~ In dollar value ->
        getSubstitution matched before after value = value).
Proof.
  intros He Ha. split.
  - exists (map (processArg replacements) arguments). split.
    + now apply parseCustomCommand_render.
    + now apply processArg_Substituted.
  - intros matched before after value.
    apply ReplaceFacts.getSubstitution_literal.
Qed.

Lemma quoted_words_first_occurrence_witness :
  Quotable (str "x") /\ Forall Quotable [str "%s %s"]
  /\ (exists substituted,
        parseCustomCommand (render [str "x"; str "%s %s"])
          [(str "%s", str "v")]
        = Returned {| executable := str "x"; args := substituted |}
        /\ Forall2 (Substituted [(str "%s", str "v")]) [str "%s %s"]
             substituted)
  /\ (forall matched before after value,
        ~ In dollar value ->
        getSubstitution matched before after value = value).
Proof.
  assert (Q : forall s : jsstring,
             s <> [] -> existsb (Ascii.eqb dquote) s = false -> Quotable s).
  { intros s Hs Hq. split; [exact Hs|]. intros Hin.
    assert (existsb (Ascii.eqb dquote) s = true)
      by (apply existsb_exists; exists dquote; split;
          [exact Hin | apply Ascii.eqb_refl]).
    congruence. }
  assert (He : Quotable (str "x"))
    by (apply Q; [discriminate | reflexivity]).
  assert (Ha : Forall Quotable [str "%s %s"])
    by (constructor; [apply Q; [discriminate | reflexivity] | constructor]).
  split; [exact He|]. split; [exact Ha|].
  exact (quoted_words_first_occurrence (str "x") [str "%s %s"]
           [(str "%s", str "v")] He Ha).
Defined.

(** X5. Words put in double quotes and joined by single spaces parse back:
    the first word is the executable, and the other words, each after
    the replacements, are the arguments; without replacements they are
    the arguments as they stand. *)
Theorem parse_render (exe : jsstring) (arguments : list jsstring)
    (replacements : list (jsstring * jsstring)) :
  Quotable exe -> Forall Quotable arguments ->
  parseCustomCommand (render (exe :: arguments)) replacements
  = Returned {| executable := exe;
                args := map (processArg replacements) arguments |}
  /\ parseCustomCommand (render (exe :: arguments)) []
     = Returned {| executable := exe; args := arguments |}.
Proof.
  intros He Ha. split; [now apply parseCustomCommand_render|].
  rewrite parseCustomCommand_render by assumption. f_equal. f_equal.
  rewrite <- (map_id arguments) at 2. apply map_ext_in.
  intros a Hin. rewrite Forall_forall in Ha.
  unfold processArg. simpl. now apply stripQuotes_same, Ha.
Qed.

Lemma parse_render_witness :
  Quotable (str "notepad.exe") /\ Forall Quotable [str "C:/a b.txt"]
  /\ parseCustomCommand (render [str "notepad.exe"; str "C:/a b.txt"])
       [(str "b", str "c")]
     = Returned {| executable := str "notepad.exe";
                   args := map (processArg [(str "b", str "c")])
                             [str "C:/a b.txt"] |}
  /\ parseCustomCommand (render [str "notepad.exe"; str "C:/a b.txt"]) []
     = Returned {| executable := str "notepad.exe";
                   args := [str "C:/a b.txt"] |}.
Proof.
  assert (Q : forall s : jsstring,
             s <> [] -> existsb (Ascii.eqb dquote) s = false -> Quotable s).
  { intros s Hs Hq. split; [exact Hs|]. intros Hin.
    assert (existsb (Ascii.eqb dquote) s = true)
      by (apply existsb_exists; exists dquote; split;
          [exact Hin | apply Ascii.eqb_refl]).
    congruence. }
  assert (He : Quotable (str "notepad.exe"))
    by (apply Q; [discriminate | reflexivity]).
  assert (Ha : Forall Quotable [str "C:/a b.txt"])
    by (constructor; [apply Q; [discriminate | reflexivity] | constructor]).
  split; [exact He|]. split; [exact Ha|].
  exact (parse_render (str "notepad.exe") [str "C:/a b.txt"]
           [(str "b", str "c")] He Ha).
Defined.

End TemplateMore.

(* ================================================================= *)
(** ** executeCustomCommand, searchWithEverything, getWindowsPaths *)

Module ToolsFacts.

Section Facts.

Variable World : Type.
Variable execAsync : jsstring -> M World ExecOutput.
Variable execFileAsync : jsstring -> list jsstring -> M World ExecOutput.

(** X6. A command line without any double quote or backslash is refused
    before anything is launched: the error is [Invalid command format]
    and the world is as it was, whatever the executor would have done. *)
Theorem executeCustomCommand_unquoted (command : jsstring)
    (replacements : list (jsstring * jsstring)) (w : World) :
  ~ In dquote command -> ~ In backslash command ->
  executeCustomCommand execFileAsync command replacements w
  = (w, Threw invalidCommandFormat).
Proof.
  intros Hq Hb. unfold executeCustomCommand, bind, lift.
  now rewrite TemplateFacts.unquoted_command_refused.
Qed.

(** X7. For words in double quotes joined by single spaces, the first word
    is launched with the other words, after the replacements, as its
    list of arguments.  When the launch succeeds the trimmed standard
    output is returned; when it fails the failure is thrown as it came,
    a missing executable (ENOENT) included. *)
Theorem executeCustomCommand_render (exe : jsstring)
    (arguments : list jsstring) (replacements : list (jsstring * jsstring))
    (w : World) :
  Quotable exe -> Forall Quotable arguments ->
  executeCustomCommand execFileAsync (render (exe :: arguments))
    replacements w
  = match execFileAsync exe (map (processArg replacements) arguments) w with
    | (w', Returned out) => (w', Returned (trim (stdout out)))
    | (w', Threw t) => (w', Threw t)
    end.
Proof.
  intros He Ha. unfold executeCustomCommand, bind, lift, ret.
  rewrite TemplateMore.parseCustomCommand_render by assumption. simpl.
  now destruct (execFileAsync exe _ w) as [w' [out|t]].
Qed.

Lemma commandNotFound_says : saysNotFound commandNotFound = true.
Proof. reflexivity. Qed.

Lemma searchWithEverything_cases (query : jsstring)
    (maxResults : option nat) (w : World) :
  match execAsync (fullCommand (everythingCommand query maxResults)) w with
  | (w', Returned out) =>
      searchWithEverything execAsync query maxResults w
      = (w', Returned (filter (fun path => truthy (trim path))
                         (splitLines (trim (stdout out)))))
  | (w', Threw t) =>
      searchWithEverything execAsync query maxResults w
      = (w', Threw (if isENOENT t || saysNotFound t
                    then everythingNotFound else t))
  end.
Proof.
  unfold searchWithEverything, tryCatch, bind, ret, throw. cbv zeta.
  pose proof (ExecFacts.executeWindowsCommand_cases World execAsync
                (everythingCommand query maxResults) w) as E.
  destruct (execAsync (fullCommand (everythingCommand query maxResults)) w)
    as [w' [out|t]]; rewrite E; [reflexivity|].
  destruct (isENOENT t).
  - rewrite commandNotFound_says. reflexivity.
  - simpl orb. now destruct (saysNotFound t).
Qed.

(** X8. When the launch of the search fails with ENOENT, or with any
    [Error] whose message has [not found] in it, [searchWithEverything]
    throws the error that Everything is not installed; every other
    failure is thrown as it came. *)
Theorem searchWithEverything_failures (query : jsstring)
    (maxResults : option nat) (w w' : World) (t : Thrown) :
  execAsync (fullCommand (everythingCommand query maxResults)) w
  = (w', Threw t) ->
  (isENOENT t = true \/ saysNotFound t = true ->
   searchWithEverything execAsync query maxResults w
   = (w', Threw everythingNotFound))
  /\ (isENOENT t = false -> saysNotFound t = false ->
      searchWithEverything execAsync query maxResults w = (w', Threw t)).
Proof.
  intros H. pose proof (searchWithEverything_cases query maxResults w) as E.
  rewrite H in E. rewrite E. split.
  - intros [-> | ->]; [reflexivity | now rewrite orb_true_r].
  - now intros -> ->.
Qed.

(** X9. Every path that [searchWithEverything] returns has a character that
    is not white space, and no line feed. *)
Theorem searchWithEverything_paths (query : jsstring)
    (maxResults : option nat) (w w' : World) (paths : list jsstring) :
  searchWithEverything execAsync query maxResults w = (w', Returned paths) ->
  Forall (fun path => ~ Blank path /\ ~ In LF path) paths.
Proof.
  intros H. pose proof (searchWithEverything_cases query maxResults w) as E.
  destruct (execAsync (fullCommand (everythingCommand query maxResults)) w)
    as [w1 [out|t]]; rewrite E in H; [|discriminate].
  injection H as _ <-. apply Forall_forall. intros path Hin.
  apply filter_In in Hin as [Hin Hkeep]. split.
  - intros Hb. now rewrite (TrimFacts.trim_blank _ Hb) in Hkeep.
  - pose proof (SplitFacts.splitLines_lines (trim (stdout out))) as HL.
    rewrite Forall_forall in HL. now apply HL.
Qed.

(** X10. What [executeWindowsCommand] returns has no white space at its
    head and none at its end. *)
Theorem executeWindowsCommand_trimmed (command : jsstring) (w w' : World)
    (output : jsstring) :
  executeWindowsCommand execAsync command w = (w', Returned output) ->
  match output with
  | [] => True
  | c :: _ => isWhiteSpace c = false
  end
  /\ match rev output with
     | [] => True
     | c :: _ => isWhiteSpace c = false
     end.
Proof.
  intros H.
  pose proof (ExecFacts.executeWindowsCommand_cases World execAsync command w)
    as E.
  destruct (execAsync (fullCommand command) w) as [w1 [out|t]];
    rewrite E in H; [|discriminate].
  injection H as _ <-. split.
  - apply TrimFacts.trim_head.
  - apply TrimFacts.trim_last.
Qed.

End Facts.

Lemma not_in (c : ascii) (s : jsstring) :
  existsb (Ascii.eqb c) s = false -> ~ In c s.
Proof.
  intros H Hin.
  assert (existsb (Ascii.eqb c) s = true)
    by (apply existsb_exists; exists c; split;
        [exact Hin | apply Ascii.eqb_refl]).
  congruence.
Qed.

Lemma executeCustomCommand_unquoted_witness :
  ~ In dquote (str "notepad.exe file.txt")
  /\ ~ In backslash (str "notepad.exe file.txt")
  /\ executeCustomCommand missing (str "notepad.exe file.txt") [] tt
     = (tt, Threw invalidCommandFormat).
Proof.
  assert (Hq : ~ In dquote (str "notepad.exe file.txt"))
    by (apply not_in; reflexivity).
  assert (Hb : ~ In backslash (str "notepad.exe file.txt"))
    by (apply not_in; reflexivity).
  split; [exact Hq|]. split; [exact Hb|].
  exact (executeCustomCommand_unquoted unit missing
           (str "notepad.exe file.txt") [] tt Hq Hb).
Defined.

Lemma executeCustomCommand_render_witness :
  Quotable (str "notepad.exe") /\ Forall Quotable [str "C:/a b.txt"]
  /\ executeCustomCommand missing
       (render [str "notepad.exe"; str "C:/a b.txt"]) [] tt
     = match missing (str "notepad.exe")
               (map (processArg []) [str "C:/a b.txt"]) tt with
       | (w', Returned out) => (w', Returned (trim (stdout out)))
       | (w', Threw t) => (w', Threw t)
       end.
Proof.
  assert (He : Quotable (str "notepad.exe"))
    by (split; [discriminate | apply not_in; reflexivity]).
  assert (Ha : Forall Quotable [str "C:/a b.txt"])
    by (constructor;
        [split; [discriminate | apply not_in; reflexivity] | constructor]).
  split; [exact He|]. split; [exact Ha|].
  exact (executeCustomCommand_render unit missing (str "notepad.exe")
           [str "C:/a b.txt"] [] tt He Ha).
Defined.

Lemma searchWithEverything_failures_witness :
  absent (fullCommand (everythingCommand (str "*.png") None)) tt
  = (tt, Threw noSuchFile)
  /\ (isENOENT noSuchFile = true \/ saysNotFound noSuchFile = true ->
      searchWithEverything absent (str "*.png") None tt
      = (tt, Threw everythingNotFound))
  /\ (isENOENT noSuchFile = false -> saysNotFound noSuchFile = false ->
      searchWithEverything absent (str "*.png") None tt
      = (tt, Threw noSuchFile)).
Proof.
  split; [reflexivity|].
  apply (searchWithEverything_failures unit absent (str "*.png") None tt tt
           noSuchFile).
  reflexivity.
Defined.

Lemma searchWithEverything_paths_witness :
  searchWithEverything printingPaths (str "*.txt") (Some 5) tt
  = (tt, Returned [str "C:\a.txt"; str "C:\b c.txt"])
  /\ Forall (fun path => ~ Blank path /\ ~ In LF path)
       [str "C:\a.txt"; str "C:\b c.txt"].
Proof.
  split; [reflexivity|].
  apply (searchWithEverything_paths unit printingPaths (str "*.txt") (Some 5)
           tt tt).
  reflexivity.
Defined.

Lemma executeWindowsCommand_trimmed_witness :
  executeWindowsCommand printingPaths (str "dir") tt
  = (tt, Returned (str "C:\a.txt" ++ [CR; LF; CR; LF] ++ str "C:\b c.txt"))
  /\ match str "C:\a.txt" ++ [CR; LF; CR; LF] ++ str "C:\b c.txt" with
     | [] => True
     | c :: _ => isWhiteSpace c = false
     end
  /\ match rev (str "C:\a.txt" ++ [CR; LF; CR; LF] ++ str "C:\b c.txt") with
     | [] => True
     | c :: _ => isWhiteSpace c = false
     end.
Proof.
  split; [reflexivity|].
  apply (executeWindowsCommand_trimmed unit printingPaths (str "dir") tt tt).
  reflexivity.
Defined.

(** X11. Whatever the environment holds, none of the seven paths is empty. *)
Theorem getWindowsPaths_never_empty (env : jsstring -> option jsstring) :
  let paths := getWindowsPaths env in
  userProfile paths <> [] /\ programFiles paths <> []
  /\ programFilesX86 paths <> [] /\ systemRoot paths <> []
  /\ temp paths <> [] /\ appData paths <> [] /\ localAppData paths <> [].
Proof.
  assert (H : forall v c d, orElse v (c :: d) <> []).
  { intros [[|x s]|] c d; discriminate. }
  simpl. repeat split; apply H.
Qed.

End ToolsFacts.

(* ================================================================= *)
(** ** The bulk runner: counts, progress calls, empty input *)

Module BulkFacts.

Lemma skipn_cons_nth {A : Type} (l : list A) :
  forall i x r,
    skipn i l = x :: r -> nth_error l i = Some x /\ skipn (S i) l = r.
Proof.
  induction l as [|y l IH]; intros [|i] x r H; simpl in *;
    try discriminate.
  - injection H as -> ->. now split.
  - now apply IH.
Qed.

Lemma skipn_nil_nth {A : Type} (l : list A) :
  forall i, skipn i l = [] -> nth_error l i = None.
Proof.
  induction l as [|y l IH]; intros [|i] H; simpl in *;
    try discriminate; auto.
Qed.

Section Facts.

Variables T World : Type.
Variable processor : T -> M (Store T World) unit.
Variable onProgress : option (nat -> nat -> M (Store T World) unit).

Lemma loopOver_unfold item rest i total results :
  loopOver processor onProgress (item :: rest) i total results
  = (results' <-
       tryCatch
         (processor item ;; ret (recordSuccess results))
         (fun error => ret (recordFailure results error)) ;;
     match onProgress with
     | Some cb => cb (i + 1) total
     | None => ret tt
     end ;;
     loopOver processor onProgress rest (S i) total results')%js.
Proof. reflexivity. Qed.

Lemma tryCatch_processor item results s :
  tryCatch
    (processor item ;; ret (recordSuccess results))%js
    (fun error => ret (recordFailure results error)) s
  = (fst (processor item s), Returned (attempted processor item results s)).
Proof.
  unfold tryCatch, bind, ret, attempted.
  now destruct (processor item s) as [s1 [[]|t]].
Qed.

Lemma body_eq i item results s :
  body processor onProgress i item results s
  = match callOnProgress onProgress (i + 1) (fst (processor item s)) with
    | (s2, Returned _) => (s2, Returned (attempted processor item results s))
    | (s2, Threw t) => (s2, Threw t)
    end.
Proof.
  unfold body. unfold bind at 1. rewrite tryCatch_processor.
  reflexivity.
Qed.

Lemma loopOver_eq item rest i total results s :
  loopOver processor onProgress (item :: rest) i total results s
  = match match onProgress with
          | Some cb => cb (i + 1) total
          | None => ret tt
          end (fst (processor item s)) with
    | (s2, Returned _) =>
        loopOver processor onProgress rest (S i) total
          (attempted processor item results s) s2
    | (s2, Threw t) => (s2, Threw t)
    end.
Proof.
  rewrite loopOver_unfold. unfold bind at 1. rewrite tryCatch_processor.
  reflexivity.
Qed.

(** Fuel that sufficed still suffices when there is more of it, and the
    result is the same. *)
Lemma loop_more_fuel (fuel : nat) :
  forall fuel' i results s x,
    fuel <= fuel' ->
    loop fuel processor onProgress i results s = Some x ->
    loop fuel' processor onProgress i results s = Some x.
Proof.
  induction fuel as [|fuel IH]; intros fuel' i results s x L H.
  - destruct fuel'; simpl in *;
      destruct (nth_error (itemsOf s) i); congruence.
  - destruct fuel' as [|fuel']; [lia|]. simpl in *.
    destruct (nth_error (itemsOf s) i) as [item|]; [|exact H].
    destruct (body processor onProgress i item results s) as [s' [r|t]];
      [|exact H].
    apply IH; [lia | exact H].
Qed.

Section Unchanged.

Hypothesis Hp : ProcessorKeepsArray processor.
Hypothesis Hc : CallbackKeepsArray onProgress.

(** When nothing changes the array, the loop with enough fuel is the
    loop over the items as they were at the start. *)
Lemma loop_loopOver (rest : list T) :
  forall fuel i results s,
    skipn i (itemsOf s) = rest ->
    length rest <= fuel ->
    loop fuel processor onProgress i results s
    = Some (loopOver processor onProgress rest i (length (itemsOf s))
              results s)
    /\ itemsOf (fst (loopOver processor onProgress rest i
                       (length (itemsOf s)) results s))
       = itemsOf s.
Proof.
  induction rest as [|item rest IH]; intros fuel i results s Hs L.
  - apply skipn_nil_nth in Hs. destruct fuel; simpl; rewrite Hs; now split.
  - apply skipn_cons_nth in Hs as [Hn Hs].
    destruct fuel as [|fuel]; [simpl in L; lia|].
    simpl loop. rewrite Hn, body_eq, loopOver_eq.
    pose proof (Hp item s) as Kp.
    set (s1 := fst (processor item s)) in *.
    assert (E : callOnProgress onProgress (i + 1) s1
                = match onProgress with
                  | Some cb => cb (i + 1) (length (itemsOf s))
                  | None => ret tt
                  end s1).
    { unfold callOnProgress. destruct onProgress; [|reflexivity].
      cbv beta. now rewrite Kp. }
    assert (K : itemsOf (fst (callOnProgress onProgress (i + 1) s1))
                = itemsOf s).
    { unfold callOnProgress. destruct onProgress as [cb|] eqn:Eo.
      - rewrite <- Kp. apply (Hc cb eq_refl).
      - exact Kp. }
    rewrite <- E.
    destruct (callOnProgress onProgress (i + 1) s1) as [s2 [[]|t]].
    + simpl in K. rewrite <- K.
      apply IH; [now rewrite K | simpl in L; lia].
    + split; [reflexivity | exact K].
Qed.

(** With the array unchanged, whatever the function comes to with some
    fuel is what the loop over the items comes to. *)
Lemma run_loopOver (items : list T) (w : World) (fuel : nat)
    (x : Store T World * Completion Results) :
  processItemsWithRecovery fuel items processor onProgress w = Some x ->
  x = loopOver processor onProgress items 0 (length items) noResults
        (w, items).
Proof.
  unfold processItemsWithRecovery. intros H.
  apply (loop_more_fuel fuel (fuel + length items)) in H; [|lia].
  destruct (loop_loopOver items (fuel + length items) 0 noResults (w, items)
              eq_refl ltac:(lia)) as [E _].
  simpl in E. congruence.
Qed.

Lemma run_returns (items : list T) (w : World) (fuel : nat) :
  length items <= fuel ->
  processItemsWithRecovery fuel items processor onProgress w
  = Some (loopOver processor onProgress items 0 (length items) noResults
            (w, items)).
Proof.
  intros L. unfold processItemsWithRecovery.
  now destruct (loop_loopOver items fuel 0 noResults (w, items) eq_refl L).
Qed.

End Unchanged.

Lemma loopOver_counts (rest : list T) :
  forall i total results s,
    match loopOver processor onProgress rest i total results s with
    | (_, Returned r) =>
        successful r + failed r
          = successful results + failed results + length rest
        /\ length (errors r) + failed results
          = length (errors results) + failed r
    | (_, Threw t) => thrownByCallback onProgress t
    end.
Proof.
  induction rest as [|item rest IH]; intros i total results s.
  - simpl. unfold ret. lia.
  - rewrite loopOver_unfold. unfold bind, tryCatch, ret.
    destruct (processor item s) as [s1 [[]|t]]; simpl;
      destruct onProgress as [cb|] eqn:Eo;
      try (destruct (cb (i + 1) total s1) as [s2 [[]|t2]] eqn:Ecb;
           [|exists cb, (i + 1), total, s1, s2; now split]);
      match goal with
      | |- context [loopOver ?p ?o rest ?j ?n ?res ?st] =>
          specialize (IH j n res st);
          destruct (loopOver p o rest j n res st) as [? [?|?]]
      end; auto; simpl in IH; try rewrite length_app in IH;
      simpl in IH; lia.
Qed.

(** C1, amended.  When neither the processor nor the progress callback
    changes the array while the function runs, then for an array of
    length N: the function comes to an end (N passes of the loop
    suffice); every outcome it returns has
    [successful + failed = N] and [errors.length = failed], however
    many items fail; and when it throws instead, the thrown value came
    out of the progress callback. *)
Theorem outcome_counts (items : list T) (w : World) :
  ProcessorKeepsArray processor -> CallbackKeepsArray onProgress ->
  (forall fuel,
     length items <= fuel ->
     exists x,
       processItemsWithRecovery fuel items processor onProgress w = Some x)
  /\ (forall fuel s r,
        processItemsWithRecovery fuel items processor onProgress w
        = Some (s, Returned r) ->
        successful r + failed r = length items
        /\ length (errors r) = failed r)
  /\ (forall fuel s t,
        processItemsWithRecovery fuel items processor onProgress w
        = Some (s, Threw t) ->
        thrownByCallback onProgress t).
Proof.
  intros Hp Hc.
  pose proof (loopOver_counts items 0 (length items) noResults (w, items))
    as H.
  split; [|split].
  - intros fuel L. rewrite (run_returns Hp Hc items w fuel L). eauto.
  - intros fuel s r E. apply (run_loopOver Hp Hc) in E.
    rewrite <- E in H. simpl in H. lia.
  - intros fuel s t E. apply (run_loopOver Hp Hc) in E.
    now rewrite <- E in H.
Qed.

End Facts.

Lemma failsOnTwo_keeps : ProcessorKeepsArray failsOnTwo.
Proof.
  intros item s. unfold failsOnTwo. now destruct (item =? 2).
Qed.

Lemma silent_keeps : CallbackKeepsArray (Some silent).
Proof. intros cb H c t s. injection H as <-. reflexivity. Qed.

Lemma silent_returns : CallbackReturns (Some silent).
Proof. intros cb H c t s. injection H as <-. reflexivity. Qed.

Example one_failure_of_three :
  processItemsWithRecovery 3 [1; 2; 3] failsOnTwo (Some silent) tt
  = Some ((tt, [1; 2; 3]),
          Returned {| successful := 2; failed := 1;
                      errors := [str "no 2"] |}).
Proof. reflexivity. Qed.

Lemma outcome_counts_witness :
  ProcessorKeepsArray failsOnTwo /\ CallbackKeepsArray (Some silent)
  /\ (forall fuel,
        length [1; 2; 3] <= fuel ->
        exists x,
          processItemsWithRecovery fuel [1; 2; 3] failsOnTwo (Some silent) tt
          = Some x)
  /\ (forall fuel s r,
        processItemsWithRecovery fuel [1; 2; 3] failsOnTwo (Some silent) tt
        = Some (s, Returned r) ->
        successful r + failed r = length [1; 2; 3]
        /\ length (errors r) = failed r)
  /\ (forall fuel s t,
        processItemsWithRecovery fuel [1; 2; 3] failsOnTwo (Some silent) tt
        = Some (s, Threw t) ->
        thrownByCallback (Some silent) t).
Proof.
  split; [exact failsOnTwo_keeps|]. split; [exact silent_keeps|].
  exact (outcome_counts nat unit failsOnTwo (Some silent) [1; 2; 3] tt
           failsOnTwo_keeps silent_keeps).
Defined.

Example popping_two :
  processItemsWithRecovery 2 [1; 2] popping None tt
  = Some ((tt, [1]),
          Returned {| successful := 1; failed := 0; errors := [] |}).
Proof. reflexivity. Qed.

(** C1, as stated, fails: on the array of the two items 1 and 2, with a
    processor that succeeds and takes the last element off the array,
    the loop ends after one pass and the outcome has [successful = 1]
    and [failed = 0], which do not add up to 2. *)
Lemma counts_short_when_array_shrinks :
  ~ countsAddUp [1; 2] popping None tt.
Proof.
  intros H.
  destruct (H 2 (tt, [1])
              {| successful := 1; failed := 0; errors := [] |} eq_refl)
    as [E _].
  discriminate E.
Qed.

Section Progress.

Variables T World : Type.
Variable processor : T -> M (Store T World) unit.
Variable cb : nat -> nat -> M (Store T World) unit.

Lemma noting_keeps :
  ProcessorKeepsArray processor -> ProcessorKeepsArray (noting processor).
Proof.
  intros Hp item s. unfold noting. pose proof (Hp item (forget s)) as K.
  now destruct (processor item (forget s)) as [s' r].
Qed.

Lemma notingProgress_keeps :
  (forall c t, KeepsArray (cb c t)) ->
  CallbackKeepsArray (Some (notingProgress cb)).
Proof.
  intros Hc cb' E c t s. injection E as <-. unfold notingProgress.
  pose proof (Hc c t (forget s)) as K.
  now destruct (cb c t (forget s)) as [s' r].
Qed.

Lemma loopOver_log (rest : list T) :
  (forall c t s, snd (cb c t s) = Returned tt) ->
  forall i total results s,
    exists s' r,
      loopOver (noting processor) (Some (notingProgress cb)) rest i total
        results s
      = (s', Returned r)
      /\ snd (fst s') = snd (fst s) ++ alternating rest (i + 1) total.
Proof.
  intros Hr. induction rest as [|item rest IH]; intros i total results s.
  - exists s, results. simpl. now rewrite app_nil_r.
  - rewrite loopOver_eq. unfold noting at 1.
    destruct (processor item (forget s)) as [s1 c1]. simpl fst.
    unfold notingProgress at 1.
    pose proof (Hr (i + 1) total
                  (forget (noted (ProcessorCall item) s s1))) as R.
    destruct (cb (i + 1) total (forget (noted (ProcessorCall item) s s1)))
      as [s2 c2].
    simpl in R. subst c2.
    match goal with
    | |- context [loopOver ?p ?o rest ?j ?n ?res ?st] =>
        destruct (IH j n res st) as (s' & r & -> & E)
    end.
    exists s', r. split; [reflexivity|]. rewrite E. simpl.
    rewrite <- !app_assoc. simpl.
    now replace (S i + 1) with (S (i + 1)) by lia.
Qed.

Lemma progressCalls_alternating (items : list T) :
  forall completed total,
    progressCalls (alternating items completed total)
    = map (fun k => (k, total)) (seq completed (length items)).
Proof.
  induction items as [|item rest IH]; intros completed total; simpl.
  - reflexivity.
  - now rewrite IH.
Qed.

(** C7, amended.  When neither the processor nor the progress callback
    changes the array and the callback never throws, a run over N items
    comes to an end and has made exactly these calls, in this order: the
    processor on the first item, [onProgress(1, N)], the processor on
    the second item, [onProgress(2, N)], and so on up to
    [onProgress(N, N)]; so the callback is called once after each item,
    whether the processor succeeded or threw on it.  The calls are
    written down by the two callbacks themselves. *)
Theorem progress_after_every_item (items : list T) (w : World) (fuel : nat) :
  ProcessorKeepsArray processor ->
  (forall c t, KeepsArray (cb c t)) ->
  (forall c t s, snd (cb c t s) = Returned tt) ->
  length items <= fuel ->
  exists w' r,
    processItemsWithRecovery fuel items (noting processor)
      (Some (notingProgress cb)) (w, [])
    = Some (((w', alternating items 1 (length items)), items), Returned r)
    /\ progressCalls (alternating items 1 (length items))
       = map (fun k => (k, length items)) (seq 1 (length items)).
Proof.
  intros Hp Hc Hr L.
  rewrite (run_returns _ _ _ _ (noting_keeps Hp) (notingProgress_keeps Hc)
             items (w, []) fuel L).
  destruct (loop_loopOver _ _ _ _ (noting_keeps Hp)
              (notingProgress_keeps Hc)
              items fuel 0 noResults ((w, []), items) eq_refl L)
    as [_ K].
  destruct (loopOver_log items Hr 0 (length items) noResults
              ((w, []), items)) as (s' & r & E & Hlog).
  simpl in K. rewrite E in K. rewrite E. simpl in K, Hlog.
  destruct s' as [[w' log] arr]. simpl in *. subst.
  exists w', r. split; [reflexivity|]. apply progressCalls_alternating.
Qed.

End Progress.

Lemma progress_after_every_item_witness :
  ProcessorKeepsArray failsOnTwo
  /\ (forall c t, KeepsArray (silent c t))
  /\ (forall c t s, snd (silent c t s) = Returned tt)
  /\ length [1; 2; 3] <= 3
  /\ exists w' r,
       processItemsWithRecovery 3 [1; 2; 3] (noting failsOnTwo)
         (Some (notingProgress silent)) (tt, [])
       = Some (((w', alternating [1; 2; 3] 1 (length [1; 2; 3])),
                [1; 2; 3]), Returned r)
       /\ progressCalls (alternating [1; 2; 3] 1 (length [1; 2; 3]))
          = map (fun k => (k, length [1; 2; 3])) (seq 1 (length [1; 2; 3])).
Proof.
  assert (Hc : forall c t, KeepsArray (silent c t))
    by (intros c t s; reflexivity).
  assert (Hr : forall c t s, snd (silent c t s) = Returned tt)
    by (intros c t s; reflexivity).
  assert (L : length [1; 2; 3] <= 3) by (simpl; lia).
  split; [exact failsOnTwo_keeps|]. split; [exact Hc|].
  split; [exact Hr|]. split; [exact L|].
  exact (progress_after_every_item nat unit failsOnTwo silent [1; 2; 3] tt 3
           failsOnTwo_keeps Hc Hr L).
Defined.

Example popping_progress :
  processItemsWithRecovery 2 [1; 2] (noting popping)
    (Some (notingProgress silent)) (tt, [])
  = Some (((tt, [ProcessorCall 1; ProgressCall 1 1]), [1]),
          Returned {| successful := 1; failed := 0; errors := [] |}).
Proof. reflexivity. Qed.

Example stopping_progress :
  processItemsWithRecovery 2 [1; 2] (noting idle)
    (Some (notingProgress stopping)) (tt, [])
  = Some (((tt, [ProcessorCall 1; ProgressCall 1 2]), [1; 2]),
          Threw (newError (str "stop"))).
Proof. reflexivity. Qed.

(** C7, as stated, fails, in two ways.  With a processor that takes the
    last element off the array, the run over two items makes one
    progress call, [onProgress(1, 1)].  With a progress callback that
    throws, the run over two items ends at the first progress call,
    [onProgress(1, 2)], and the second item gets none. *)
Lemma progress_calls_missing :
  ~ progressOnceAfterEachItem [1; 2] popping silent tt
  /\ ~ progressOnceAfterEachItem [1; 2] idle stopping tt.
Proof.
  split; intros H.
  - specialize (H 2 _ _ popping_progress). discriminate H.
  - specialize (H 2 _ _ stopping_progress). discriminate H.
Qed.

Section Empty.

Variables T World : Type.

(** C9. On the empty sequence the function returns at once, with
    [successful = 0], [failed = 0] and no error message.  The world and
    the array are as they were, whatever the processor and the
    callback would do, and whatever list of calls the world holds: so
    neither was called, and nothing is thrown. *)
Theorem empty_sequence (fuel : nat)
    (processor : T -> M (Store T World) unit)
    (onProgress : option (nat -> nat -> M (Store T World) unit))
    (w : World) :
  processItemsWithRecovery fuel [] processor onProgress w
  = Some ((w, []),
          Returned {| successful := 0; failed := 0; errors := [] |}).
Proof. destruct fuel; reflexivity. Qed.

End Empty.

End BulkFacts.

(* ================================================================= *)
(** ** More on the bulk runner *)

Module BulkMore.

Import BulkFacts.

Lemma addResults_noResults_l (r : Results) : addResults noResults r = r.
Proof. now destruct r. Qed.

Lemma addResults_noResults_r (r : Results) : addResults r noResults = r.
Proof.
  destruct r as [s f e]. unfold addResults. simpl.
  now rewrite !Nat.add_0_r, app_nil_r.
Qed.

Lemma addResults_success (results r : Results) :
  addResults (recordSuccess results) r
  = addResults results (addResults (recordSuccess noResults) r).
Proof.
  unfold addResults, recordSuccess. simpl. f_equal. lia.
Qed.

Lemma addResults_failure (results r : Results) (t : Thrown) :
  addResults (recordFailure results t) r
  = addResults results (addResults (recordFailure noResults t) r).
Proof.
  unfold addResults, recordFailure. simpl. f_equal; [lia|].
  now rewrite <- app_assoc.
Qed.

Lemma no_callback_keeps {T World : Type} :
  @CallbackKeepsArray T World None.
Proof. intros cb H. discriminate H. Qed.

Lemma aside_keeps {T World A : Type} (m : M World A) :
  @KeepsArray T World A (aside m).
Proof.
  intros s. unfold aside. now destruct (m (fst s)).
Qed.

Section Facts.

Variables T World : Type.

Lemma loopOver_app (processor : T -> M (Store T World) unit)
    (onProgress : option (nat -> nat -> M (Store T World) unit))
    (a b : list T) :
  forall i total results s,
    loopOver processor onProgress (a ++ b) i total results s
    = match loopOver processor onProgress a i total results s with
      | (s1, Returned r1) =>
          loopOver processor onProgress b (i + length a) total r1 s1
      | (s1, Threw t) => (s1, Threw t)
      end.
Proof.
  induction a as [|item a IH]; intros i total results s.
  - simpl. unfold ret. now rewrite Nat.add_0_r.
  - change ((item :: a) ++ b) with (item :: a ++ b).
    rewrite !loopOver_eq.
    destruct onProgress as [cb|];
      [destruct (cb (i + 1) total (fst (processor item s)))
         as [s2 [[]|t]]; [|reflexivity]
      |unfold ret];
      rewrite IH;
      now replace (S i + length a) with (i + length (item :: a))
        by (simpl; lia).
Qed.

Section Aside.

Variable p : T -> M World unit.

(** A processor that acts on the world alone gives, from the world [w],
    the same world and the same additions to the outcome, whatever the
    array, the index and the total are. *)
Lemma loopOver_aside (rest : list T) :
  forall w, exists w' r,
    forall i total results arr,
      loopOver (fun item => aside (p item)) None rest i total results
        (w, arr)
      = ((w', arr), Returned (addResults results r)).
Proof.
  induction rest as [|item rest IH]; intros w.
  - exists w, noResults. intros. simpl. unfold ret.
    now rewrite addResults_noResults_r.
  - destruct (p item w) as [w1 c] eqn:Ep.
    destruct (IH w1) as (w' & r & H).
    exists w'.
    exists (addResults
              (match c with
               | Returned _ => recordSuccess noResults
               | Threw t => recordFailure noResults t
               end) r).
    intros i total results arr. rewrite loopOver_eq.
    unfold attempted, aside, ret. simpl. rewrite Ep. simpl. rewrite H.
    destruct c as [[]|t];
      [now rewrite addResults_success | now rewrite addResults_failure].
Qed.

(** X12. For a processor that acts on the outside world alone (it
    neither reads nor changes the array) and no progress callback, a
    batch can be cut in two: running the first part and then, from the
    world it leaves, the second part, gives two outcomes whose sum is
    the outcome of the whole batch, and leaves the same world as the
    whole batch does. *)
Theorem batch_split (a b : list T) (w : World) (fuel : nat) :
  length (a ++ b) <= fuel ->
  exists w1 r1 w2 r2,
    processItemsWithRecovery fuel a (fun item => aside (p item)) None w
    = Some ((w1, a), Returned r1)
    /\ processItemsWithRecovery fuel b (fun item => aside (p item)) None w1
       = Some ((w2, b), Returned r2)
    /\ processItemsWithRecovery fuel (a ++ b) (fun item => aside (p item))
         None w
       = Some ((w2, a ++ b), Returned (addResults r1 r2)).
Proof.
  intros L. rewrite length_app in L.
  assert (Hp : ProcessorKeepsArray (fun item : T => aside (p item)))
    by (intros item; apply aside_keeps).
  destruct (loopOver_aside a w) as (w1 & r1 & Ha).
  destruct (loopOver_aside b w1) as (w2 & r2 & Hb).
  exists w1, r1, w2, r2.
  rewrite !(run_returns _ _ _ _ Hp no_callback_keeps)
    by (try rewrite length_app; lia).
  rewrite loopOver_app, !Ha, !Hb, !addResults_noResults_l.
  repeat split.
Qed.

End Aside.

Section Verdict.

Variable processor : T -> M (Store T World) unit.
Variable onProgress : option (nat -> nat -> M (Store T World) unit).
Variable verdict : T -> Completion unit.

Hypothesis Hv : forall item s, snd (processor item s) = verdict item.
Hypothesis Hr : CallbackReturns onProgress.

Lemma loopOver_verdict (rest : list T) :
  forall i total results s,
    exists s' r,
      loopOver processor onProgress rest i total results s
      = (s', Returned r)
      /\ failed r = failed results + length (failureMessages verdict rest)
      /\ errors r = errors results ++ failureMessages verdict rest.
Proof.
  induction rest as [|item rest IH]; intros i total results s.
  - exists s, results. simpl. now rewrite Nat.add_0_r, app_nil_r.
  - rewrite loopOver_eq. unfold attempted. rewrite Hv.
    assert (E : exists s2,
               match onProgress with
               | Some cb => cb (i + 1) total
               | None => ret tt
               end (fst (processor item s)) = (s2, Returned tt)).
    { destruct onProgress as [cb|] eqn:Eo; [|unfold ret; eauto].
      pose proof (Hr cb eq_refl (i + 1) total (fst (processor item s))) as R.
      destruct (cb (i + 1) total (fst (processor item s))) as [s2 c2].
      simpl in R. subst c2. eauto. }
    destruct E as [s2 ->].
    match goal with
    | |- context [loopOver ?q ?o rest ?j ?n ?res ?st] =>
        destruct (IH j n res st) as (s' & r & -> & Hf & He)
    end.
    exists s', r. split; [reflexivity|].
    unfold failureMessages in *. simpl.
    destruct (verdict item) as [[]|t]; simpl in *;
      rewrite Hf, He; try rewrite <- app_assoc; split; try reflexivity;
      rewrite ?length_app; simpl; lia.
Qed.

(** X13. When neither callback changes the array, the way the processor
    ends on an item depends on the item only, and the progress
    callback, if there is one, never throws, the function returns;
    [errors] holds the messages of the items on which the processor
    throws, in the order of the items, [failed] is their number and
    [successful] the number of the other items. *)
Theorem outcome_by_item (items : list T) (w : World) (fuel : nat) :
  ProcessorKeepsArray processor -> CallbackKeepsArray onProgress ->
  length items <= fuel ->
  exists s r,
    processItemsWithRecovery fuel items processor onProgress w
    = Some (s, Returned r)
    /\ errors r = failureMessages verdict items
    /\ failed r = length (failureMessages verdict items)
    /\ successful r = length items - length (failureMessages verdict items).
Proof.
  intros Hp Hc L. rewrite (run_returns _ _ _ _ Hp Hc items w fuel L).
  destruct (loopOver_verdict items 0 (length items) noResults (w, items))
    as (s & r & E & Hf & He).
  pose proof (loopOver_counts _ _ processor onProgress items 0 (length items)
                noResults (w, items)) as Hn.
  rewrite E in Hn. exists s, r. rewrite E. simpl in *.
  repeat split; auto. lia.
Qed.

End Verdict.

End Facts.

Lemma batch_split_witness :
  length ([1] ++ [2; 3]) <= 3
  /\ exists w1 r1 w2 r2,
       processItemsWithRecovery 3 [1] (fun item => aside (refusesTwo item))
         None tt
       = Some ((w1, [1]), Returned r1)
       /\ processItemsWithRecovery 3 [2; 3]
            (fun item => aside (refusesTwo item)) None w1
          = Some ((w2, [2; 3]), Returned r2)
       /\ processItemsWithRecovery 3 ([1] ++ [2; 3])
            (fun item => aside (refusesTwo item)) None tt
          = Some ((w2, [1] ++ [2; 3]), Returned (addResults r1 r2)).
Proof.
  assert (L : length ([1] ++ [2; 3]) <= 3) by (simpl; lia).
  split; [exact L|].
  exact (batch_split nat unit refusesTwo [1] [2; 3] tt 3 L).
Defined.

Lemma outcome_by_item_witness :
  (forall item s, snd (failsOnTwo item s)
                  = if item =? 2 then Threw (newError (str "no 2"))
                    else Returned tt)
  /\ CallbackReturns (Some silent)
  /\ ProcessorKeepsArray failsOnTwo /\ CallbackKeepsArray (Some silent)
  /\ length [1; 2; 3] <= 3
  /\ exists s r,
       processItemsWithRecovery 3 [1; 2; 3] failsOnTwo (Some silent) tt
       = Some (s, Returned r)
       /\ errors r
          = failureMessages
              (fun item => if item =? 2 then Threw (newError (str "no 2"))
                           else Returned tt) [1; 2; 3]
       /\ failed r
          = length
              (failureMessages
                 (fun item => if item =? 2 then Threw (newError (str "no 2"))
                              else Returned tt) [1; 2; 3])
       /\ successful r
          = length [1; 2; 3]
            - length
                (failureMessages
                   (fun item => if item =? 2
                                then Threw (newError (str "no 2"))
                                else Returned tt) [1; 2; 3]).
Proof.
  assert (Hv : forall item s,
             snd (failsOnTwo item s)
             = if item =? 2 then Threw (newError (str "no 2"))
               else Returned tt).
  { intros item s. unfold failsOnTwo. now destruct (item =? 2). }
  assert (L : length [1; 2; 3] <= 3) by (simpl; lia).
  split; [exact Hv|]. split; [exact silent_returns|].
  split; [exact failsOnTwo_keeps|]. split; [exact silent_keeps|].
  split; [exact L|].
  exact (outcome_by_item nat unit failsOnTwo (Some silent) _ Hv
           silent_returns [1; 2; 3] tt 3 failsOnTwo_keeps silent_keeps L).
Defined.

Section Killing.

Variable World : Type.
Variable execAsync : jsstring -> M World ExecOutput.

Lemma executeWindowsCommand_recording (command : jsstring) (w : World)
    (commands : list jsstring) :
  exists w' c,
    executeWindowsCommand (recording execAsync) command (w, commands)
    = ((w', commands ++ [fullCommand command]), c).
Proof.
  unfold executeWindowsCommand, tryCatch, bind, ret, throw, recording.
  cbn [fst snd].
  destruct (execAsync (fullCommand command) w) as [w' [out|t]]; [eauto|].
  destruct (isENOENT t); eauto.
Qed.

Lemma killProcess_recording (pid : jsstring) (w : World)
    (commands : list jsstring) :
  exists w' c,
    killProcess (recording execAsync) pid (w, commands)
    = ((w', commands ++ [killCommand pid]), c).
Proof.
  unfold killProcess, bind, ret, killCommand.
  destruct (executeWindowsCommand_recording
              (str "taskkill /F /PID " ++ pid) w commands) as (w' & c & ->).
  destruct c; eauto.
Qed.

Lemma killing_keeps : ProcessorKeepsArray (killing World execAsync).
Proof.
  apply noting_keeps. intros pid. apply aside_keeps.
Qed.

Lemma killing_step (pid : jsstring) (w : World)
    (commands : list jsstring) (calls : list (Call jsstring))
    (arr : list jsstring) :
  exists w1 c,
    killing World execAsync pid (((w, commands), calls), arr)
    = ((((w1, commands ++ [killCommand pid]),
         calls ++ [ProcessorCall pid]), arr), c).
Proof.
  unfold killing, noting, aside, forget, noted. cbn [fst snd].
  destruct (killProcess_recording pid w commands) as (w1 & c & ->).
  cbn [fst snd]. eauto.
Qed.

Lemma loopOver_killing (pids : list jsstring) :
  forall i total results w commands calls arr,
    exists w' r,
      loopOver (killing World execAsync) None pids i total results
        (((w, commands), calls), arr)
      = ((((w', commands ++ map killCommand pids),
           calls ++ map ProcessorCall pids), arr), Returned r)
      /\ successful r + failed r
         = successful results + failed results + length pids.
Proof.
  induction pids as [|pid pids IH];
    intros i total results w commands calls arr.
  - exists w, results. simpl. unfold ret. rewrite !app_nil_r. split; auto.
  - rewrite loopOver_eq. unfold attempted.
    destruct (killing_step pid w commands calls arr) as (w1 & c & ->).
    cbv beta iota delta [ret fst snd].
    match goal with
    | |- context [loopOver _ None pids ?j ?n ?res _] =>
        destruct (IH j n res w1 (commands ++ [killCommand pid])
                    (calls ++ [ProcessorCall pid]) arr)
          as (w' & r & -> & Hs)
    end.
    exists w', r. rewrite <- !app_assoc. split; [reflexivity|].
    destruct c as [[]|t]; simpl in *; lia.
Qed.

(** X14. Killing a list of processes through the bulk runner, without a
    progress callback: whatever the executor does, the run returns; one
    taskkill command line per identifier has been executed, in the order
    of the identifiers, none left out after a failure; the processor
    was called once per identifier, in that order; and the two counts
    add up to the number of identifiers. *)
Theorem kill_each_once (pids : list jsstring) (w : World) (fuel : nat) :
  length pids <= fuel ->
  exists w' r,
    processItemsWithRecovery fuel pids (killing World execAsync) None
      ((w, []), [])
    = Some ((((w', map killCommand pids), map ProcessorCall pids), pids),
            Returned r)
    /\ successful r + failed r = length pids.
Proof.
  intros L.
  rewrite (run_returns _ _ _ _ killing_keeps no_callback_keeps pids
             ((w, []), []) fuel L).
  destruct (loopOver_killing pids 0 (length pids) noResults w [] [] pids)
    as (w' & r & E & Hs).
  exists w', r. split; [now rewrite E | exact Hs].
Qed.

End Killing.

Lemma kill_each_once_witness :
  length [str "42"; str "7"] <= 2
  /\ exists w' r,
       processItemsWithRecovery 2 [str "42"; str "7"] (killing unit absent)
         None ((tt, []), [])
       = Some ((((w', map killCommand [str "42"; str "7"]),
                 map ProcessorCall [str "42"; str "7"]),
                [str "42"; str "7"]), Returned r)
       /\ successful r + failed r = length [str "42"; str "7"].
Proof.
  assert (L : length [str "42"; str "7"] <= 2) by (simpl; lia).
  split; [exact L|].
  exact (kill_each_once unit absent [str "42"; str "7"] tt 2 L).
Defined.

Section Toasting.

Variables T World Screen : Type.
Variable showToast : ToastOptions -> M Screen unit.

(** X15. The toast for the outcome of a run over [items] during which
    nothing changes the array.  When nothing failed (as for no items at
    all) it is a success toast that counts all the items.  When every
    item failed it is a failure toast with the first three error
    messages at most.  Otherwise it is a failure toast that gives both
    counts. *)
Theorem toast_of_outcome (items : list T)
    (processor : T -> M (Store T World) unit)
    (onProgress : option (nat -> nat -> M (Store T World) unit))
    (w : World) (fuel : nat) (s : Store T World) (r : Results)
    (operation : jsstring) :
  ProcessorKeepsArray processor -> CallbackKeepsArray onProgress ->
  processItemsWithRecovery fuel items processor onProgress w
  = Some (s, Returned r) ->
  (failed r = 0 ->
   showProcessingResults showToast r operation
   = showToast
       {| style := Success;
          title := operation ++ str " completed";
          message := str "Successfully processed "
                     ++ numberToString (length items) ++ str " items" |})
  /\ (0 < failed r -> failed r = length items ->
      showProcessingResults showToast r operation
      = showToast
          {| style := Failure;
             title := operation ++ str " failed";
             message := joinSep (str "; ") (firstn 3 (errors r)) |})
  /\ (0 < failed r -> failed r < length items ->
      showProcessingResults showToast r operation
      = showToast
          {| style := Failure;
             title := operation ++ str " partially completed";
             message := numberToString (length items - failed r)
                        ++ str " succeeded, "
                        ++ numberToString (failed r) ++ str " failed" |}).
Proof.
  intros Hp Hc E. apply (run_loopOver _ _ _ _ Hp Hc) in E.
  pose proof (loopOver_counts _ _ processor onProgress items 0 (length items)
                noResults (w, items)) as H.
  rewrite <- E in H. simpl in H. destruct H as [Hsum _].
  unfold showProcessingResults. repeat split.
  - intros F. rewrite F.
    replace (successful r) with (length items) by lia. reflexivity.
  - intros F1 F2. destruct (failed r =? 0) eqn:Z;
      [apply Nat.eqb_eq in Z; lia|].
    replace (successful r) with 0 by lia. reflexivity.
  - intros F1 F2. destruct (failed r =? 0) eqn:Z;
      [apply Nat.eqb_eq in Z; lia|].
    destruct (successful r =? 0) eqn:Z';
      [apply Nat.eqb_eq in Z'; lia|].
    replace (length items - failed r) with (successful r) by lia.
    reflexivity.
Qed.

End Toasting.

Lemma toast_of_outcome_witness :
  ProcessorKeepsArray failsOnTwo /\ CallbackKeepsArray (Some silent)
  /\ processItemsWithRecovery 3 [1; 2; 3] failsOnTwo (Some silent) tt
     = Some ((tt, [1; 2; 3]),
             Returned {| successful := 2; failed := 1;
                         errors := [str "no 2"] |})
  /\ showProcessingResults noToast
       {| successful := 2; failed := 1; errors := [str "no 2"] |}
       (str "Kill")
     = noToast
         {| style := Failure;
            title := str "Kill" ++ str " partially completed";
            message := numberToString (length [1; 2; 3] - 1)
                       ++ str " succeeded, "
                       ++ numberToString 1 ++ str " failed" |}.
Proof.
  split; [exact failsOnTwo_keeps|]. split; [exact silent_keeps|].
  split; [reflexivity|].
  refine (proj2 (proj2
            (toast_of_outcome nat unit unit noToast [1; 2; 3] failsOnTwo
               (Some silent) tt 3 (tt, [1; 2; 3])
               {| successful := 2; failed := 1; errors := [str "no 2"] |}
               (str "Kill") failsOnTwo_keeps silent_keeps _)) _ _).
  - reflexivity.
  - simpl. lia.
  - simpl. lia.
Defined.

End BulkMore.
